(** * beetsplug.web: the resource abstraction core

    A shallow embedding of [beetsplug/web/__init__.py]: the entity
    projector [_rep], the streaming encoder [json_generator], the id-list
    parser [_extract_ids] and the three responder factories [resource],
    [resource_query] and [resource_list], together with the route handlers
    built from them.

    Python values are modelled as follows.
    - [str]/[unicode] are [string]; [int]/[long] are [Z].
    - a [dict] with string keys is a [gmap string value].
    - an exception is a constructor of [exn]; a call that may raise returns
      a [result].
    - a generator is the finite trace [gen] of what it yields, ended by a
      normal return or by the exception that escaped it.
    - the builtin [int], and [os.path.getsize] composed with
      [beets.util.syspath], are parameters of the development. *)

From Stdlib Require Import ZArith String Ascii List Lia.
From stdpp Require Import gmap strings list fin_maps pretty.

Set Warnings "-register-all".
Local Open Scope string_scope.
Local Open Scope Z_scope.

(* ===================================================================== *)
(** ** Python values, exceptions, generators                              *)
(* ===================================================================== *)

(** JSON-representable Python values. *)
Inductive value : Type :=
| VNone
| VBool (b : bool)
| VInt (z : Z)
| VStr (s : string)
| VList (l : list value)
| VDict (d : gmap string value).

Inductive exn : Type :=
| KeyError (k : string)
| TypeError
| IndexError
| AttributeError
| HTTPException (code : nat).

Inductive result (A : Type) : Type :=
| Ok (a : A)
| Raise (e : exn).
Arguments Ok {A} a.
Arguments Raise {A} e.

#[global] Instance result_ret : MRet result := fun A a => Ok a.
#[global] Instance result_bind : MBind result := fun A B k r =>
  match r with
  | Ok a => k a
  | Raise e => Raise e
  end.

(** A list comprehension [[f(x) for x in l]] whose body may raise. *)
Definition comprehension {A B} (f : A -> result B) : list A -> result (list B) :=
  fix go (l : list A) : result (list B) :=
    match l with
    | [] => Ok []
    | x :: l' =>
        v ← f x;
        vs ← go l';
        Ok (v :: vs)
    end.

(** What a generator does when it is run to its end: the values it
    yields, in order, then [StopIteration] ([GReturn]) or an escaping
    exception ([GRaise]). *)
Inductive gen (A : Type) : Type :=
| Yield (x : A) (rest : gen A)
| GReturn
| GRaise (e : exn).
Arguments Yield {A} x rest.
Arguments GReturn {A}.
Arguments GRaise {A} e.

(** The fragments a consumer has received when the generator stops. *)
Fixpoint yielded {A} (g : gen A) : list A :=
  match g with
  | Yield x rest => x :: yielded rest
  | GReturn => []
  | GRaise _ => []
  end.

(** Whether the generator ran to completion. *)
Fixpoint completes {A} (g : gen A) : bool :=
  match g with
  | Yield _ rest => completes rest
  | GReturn => true
  | GRaise _ => false
  end.

(** [''.join(fragments)]. *)
Definition join_fragments (l : list string) : string := String.concat "" l.

(* ===================================================================== *)
(** ** Strings: [str.split]                                               *)
(* ===================================================================== *)

(** [s.split(sep)] for a one-character separator.  The result is never
    empty: [''.split(',') == ['']]. *)
Fixpoint split (sep : ascii) (s : string) : list string :=
  match s with
  | EmptyString => [EmptyString]
  | String c s' =>
      if Ascii.eqb c sep then EmptyString :: split sep s'
      else match split sep s' with
           | [] => [String c EmptyString]
           | t :: ts => String c t :: ts
           end
  end.

(** [c in s]. *)
Fixpoint contains (c : ascii) (s : string) : bool :=
  match s with
  | EmptyString => false
  | String c' s' => Ascii.eqb c' c || contains c s'
  end.

Definition comma : ascii := ","%char.
Definition slash : ascii := "/"%char.

(* ===================================================================== *)
(** ** A decimal reading of the builtin [int]                             *)
(* ===================================================================== *)

(** The development is parametric in [int]; this reading of it (optional
    surrounding white space, an optional sign, one or more decimal
    digits) instantiates the parameter in the worked examples. *)
Module IntLiteral.

Definition is_space (c : ascii) : bool :=
  let n := nat_of_ascii c in
  (Nat.eqb n 32 || (Nat.leb 9 n && Nat.leb n 13))%bool.

Definition digit (c : ascii) : option Z :=
  let n := nat_of_ascii c in
  if (Nat.leb 48 n && Nat.leb n 57)%bool then Some (Z.of_nat (n - 48)) else None.

Fixpoint lstrip (s : string) : string :=
  match s with
  | String c s' => if is_space c then lstrip s' else s
  | EmptyString => EmptyString
  end.

(** Digits accumulated left to right; trailing white space is allowed,
    anything else is rejected. *)
Fixpoint all_space (s : string) : bool :=
  match s with
  | EmptyString => true
  | String c s' => (is_space c && all_space s')%bool
  end.

Fixpoint digits (acc : Z) (seen : bool) (s : string) : option Z :=
  match s with
  | EmptyString => if seen then Some acc else None
  | String c s' =>
      match digit c with
      | Some d => digits (10 * acc + d) true s'
      | None => if (seen && all_space s)%bool then Some acc else None
      end
  end.

Definition int (s : string) : option Z :=
  match lstrip s with
  | String "+" s' => digits 0 false s'
  | String "-" s' => Z.opp <$> digits 0 false s'
  | s' => digits 0 false s'
  end.

End IntLiteral.

(* ===================================================================== *)
(** ** [json.dumps]                                                       *)
(* ===================================================================== *)

(** [json.dumps] with its default arguments: separators [", "] and
    [": "], [ensure_ascii=True].  Strings are sequences of code points
    below 256.  The order in which a [dict] enumerates its keys is left
    open by Python; here it is the enumeration order of the finite map. *)
Module Json.

Definition hex_digit (n : nat) : ascii :=
  ascii_of_nat (if Nat.ltb n 10 then 48 + n else 87 + n).

(** The one-character string [chr(34)], a double quote. *)
Definition dquote : string := String (ascii_of_nat 34) EmptyString.

Definition escape_char (c : ascii) : string :=
  let n := nat_of_ascii c in
  if Nat.eqb n 34 then "\" +:+ dquote
  else if Nat.eqb n 92 then "\\"
  else if Nat.eqb n 10 then "\n"
  else if Nat.eqb n 13 then "\r"
  else if Nat.eqb n 9 then "\t"
  else if Nat.eqb n 8 then "\b"
  else if Nat.eqb n 12 then "\f"
  else if (Nat.leb 32 n && Nat.leb n 126)%bool then String c EmptyString
  else "\u00" +:+ String (hex_digit (n / 16)) (String (hex_digit (n mod 16)) EmptyString).

Fixpoint escape (s : string) : string :=
  match s with
  | EmptyString => EmptyString
  | String c s' => escape_char c +:+ escape s'
  end.

Definition quote (s : string) : string := dquote +:+ escape s +:+ dquote.

Fixpoint dumps (v : value) : string :=
  match v with
  | VNone => "null"
  | VBool true => "true"
  | VBool false => "false"
  | VInt z => pretty z
  | VStr s => quote s
  | VList l => "[" +:+ String.concat ", " (map dumps l) +:+ "]"
  | VDict d =>
      "{" +:+ String.concat ", "
                (map_fold (fun k x acc => (quote k +:+ ": " +:+ dumps x) :: acc) [] d)
          +:+ "}"
  end.

End Json.

(* ===================================================================== *)
(** ** Library records                                                    *)
(* ===================================================================== *)

(** What the backend hands to this module.  An [Item] carries its [path]
    next to its other fields, an [Album] its [artpath] (possibly [None])
    and the objects its [items()] method returns.  [OOther] stands for a
    mapping-like object of any other class. *)
Inductive obj : Type :=
| OItem (path : string) (fields : gmap string value)
| OAlbum (artpath : option string) (fields : gmap string value) (tracks : list obj)
| OOther (fields : gmap string value).

Definition opt_str (o : option string) : value :=
  match o with
  | Some s => VStr s
  | None => VNone
  end.

(** [dict(obj)]: a new mapping holding every field of the record. *)
Definition dict (o : obj) : gmap string value :=
  match o with
  | OItem path fields => <["path" := VStr path]> fields
  | OAlbum artpath fields _ => <["artpath" := opt_str artpath]> fields
  | OOther fields => fields
  end.

(** [del d[k]]. *)
Definition del (k : string) (d : gmap string value) : result (gmap string value) :=
  match d !! k with
  | Some _ => Ok (delete k d)
  | None => Raise (KeyError k)
  end.

(** What a responder hands back to Flask: [flask.jsonify(x)], or
    [app.response_class(generator, mimetype=...)]. *)
Inductive response : Type :=
| Jsonify (x : value)
| Streamed (body : gen string) (mimetype : string).

Definition flask_jsonify (x : value) : response := Jsonify x.

(** [flask.abort(code)] raises the HTTP exception for [code]. *)
Definition flask_abort (code : nat) : result response := Raise (HTTPException code).

(** What the client is sent when an HTTP exception escapes a view and no
    error handler is registered, as in this module: Werkzeug's page for
    the exception, made of the status code, its name and a description. *)
Definition newline : string := String (ascii_of_nat 10) EmptyString.

Definition http_name (code : nat) : string :=
  if Nat.eqb code 404 then "Not Found" else "Unknown Error".

Definition http_description (code : nat) : string :=
  if Nat.eqb code 404 then
    "<p>The requested URL was not found on the server.  If you entered the URL manually please check your spelling and try again.</p>"
  else "<p>Unknown Error</p>".

Definition error_page (code : nat) : string :=
  "<!DOCTYPE HTML PUBLIC " +:+ Json.dquote +:+ "-//W3C//DTD HTML 3.2 Final//EN"
    +:+ Json.dquote +:+ ">" +:+ newline
    +:+ "<title>" +:+ pretty code +:+ " " +:+ http_name code +:+ "</title>" +:+ newline
    +:+ "<h1>" +:+ http_name code +:+ "</h1>" +:+ newline
    +:+ http_description code +:+ newline.

(** The body of the error response a responder's outcome leads to, if it
    leads to one. *)
Definition abort_body (r : result response) : option string :=
  match r with
  | Raise (HTTPException code) => Some (error_page code)
  | _ => None
  end.

(** The handle [g.lib]. [lib_items None] is [g.lib.items()], [lib_items
    (Some q)] is [g.lib.items(q)]; likewise for albums. *)
Record library : Type := {
  lib_get_item : Z -> option obj;
  lib_get_album : Z -> option obj;
  lib_items : option (list string) -> list obj;
  lib_albums : option (list string) -> list obj
}.

(* ===================================================================== *)
(** ** The module's functions                                             *)
(* ===================================================================== *)

Section Web.

(** The builtin [int] on a string: [None] is [ValueError]. *)
Variable int : string -> option Z.

(** [os.path.getsize(util.syspath(p))]: [None] is [OSError]. *)
Variable getsize : string -> option N.

(** The value [_rep] stores under ["size"]: the length of the file, or
    0 when the probe raised. *)
Definition probed_size (path : string) : Z :=
  match getsize path with
  | Some n => Z.of_N n
  | None => 0
  end.

Fixpoint _rep (o : obj) (expand : bool) : result value :=
  let out := dict o in
  match o with
  | OItem path _ =>
      out ← del "path" out;
      let out :=
        match getsize path with
        | Some n => <["size" := VInt (Z.of_N n)]> out
        | None => <["size" := VInt 0]> out
        end in
      Ok (VDict out)
  | OAlbum _ _ tracks =>
      out ← del "artpath" out;
      if expand then
        reps ← comprehension (fun item => _rep item false) tracks;
        Ok (VDict (<["items" := VList reps]> out))
      else Ok (VDict out)
  | OOther _ => Ok VNone
  end.

(** The [for] loop of [json_generator]; [first] is its flag. *)
Fixpoint json_generator_loop (first : bool) (items : list obj) : gen string :=
  match items with
  | [] => Yield "]}" GReturn
  | item :: items' =>
      let dump :=
        match _rep item false with
        | Ok v => Yield (Json.dumps v) (json_generator_loop false items')
        | Raise e => GRaise e
        end in
      if first then dump else Yield "," dump
  end.

Definition json_generator (items : list obj) (root : string) : gen string :=
  Yield ("{" +:+ Json.dquote +:+ root +:+ Json.dquote +:+ ":[")
        (json_generator_loop true items).

(** The loop of [_extract_ids]: [ids.append(int(id))], a [ValueError]
    being passed over. *)
Definition _extract_ids (string_ids : string) : list Z :=
  fold_left
    (fun (ids : list Z) (id : string) =>
       match int id with
       | Some n => (ids ++ [n])%list
       | None => ids
       end)
    (split comma string_ids) [].

(** [[entity for entity in entities if entity]]: [None] is the only
    falsy thing a retriever returns. *)
Fixpoint truthy (entities : list (option obj)) : list obj :=
  match entities with
  | [] => []
  | Some e :: r => e :: truthy r
  | None :: r => truthy r
  end.

(** [entities[0]]. *)
Definition first_of (entities : list obj) : result obj :=
  match entities with
  | e :: _ => Ok e
  | [] => Raise IndexError
  end.

Definition application_json : string := "application/json".

(** The responder made by [resource(name)(retriever)]. *)
Definition resource (name : string) (retriever : Z -> option obj)
    (entity_ids : string) : result response :=
  let entity_ids := _extract_ids entity_ids in
  let entities := map retriever entity_ids in
  let entities := truthy entities in
  if Nat.eqb (length entities) 1 then
    e ← first_of entities;
    v ← _rep e false;
    Ok (flask_jsonify v)
  else if negb (Nat.eqb (length entities) 0) then
    Ok (Streamed (json_generator entities name) application_json)
  else flask_abort 404.

(** The responder made by [resource_query(name)(query_func)]. *)
Definition resource_query (name : string) (query_func : list string -> list obj)
    (query : string) : response :=
  let parts := split slash query in
  let entities := query_func parts in
  Streamed (json_generator entities "results") application_json.

(** The responder made by [resource_list(name)(list_all)], run with
    [g.lib = lib]. *)
Definition resource_list (name : string) (list_all : library -> list obj)
    (lib : library) : response :=
  Streamed (json_generator (lib_items lib None) name) application_json.

(** *** Routes *)

Definition get_item (lib : library) : string -> result response :=
  resource "items" (lib_get_item lib).

Definition all_items : library -> response :=
  resource_list "items" (fun lib => lib_items lib None).

Definition item_query (lib : library) : string -> response :=
  resource_query "items" (fun queries => lib_items lib (Some queries)).

Definition get_album (lib : library) : string -> result response :=
  resource "albums" (lib_get_album lib).

Definition all_albums : library -> response :=
  resource_list "albums" (fun lib => lib_albums lib None).

(** [album_query] is [resource_query('albums')] applied to a function
    that calls [g.lib.album], which is not among the operations of
    [library]; what its responder does with whatever that function
    returns is covered by [resource_query]. *)

End Web.

(* ===================================================================== *)
(** ** The shapes the specification names                                 *)
(* ===================================================================== *)

(** The opening fragment [{"<root>":[]. *)
Definition opening (root : string) : string :=
  "{" +:+ Json.dquote +:+ root +:+ Json.dquote +:+ ":[".

(** The fragments the specification asks of the encoder: the opening
    fragment, the serialized entities with a comma before every one but
    the first, the closing fragment. *)
Definition spec_fragments (root : string) (reps : list string) : list string :=
  (opening root ::
     match reps with
     | [] => []
     | r :: rs => r :: flat_map (fun x => [","; x]) rs
     end ++ ["]}"])%list.

(** The eager serialization [{"<root>":[e1,e2,...]}]. *)
Definition eager_json (root : string) (reps : list string) : string :=
  opening root +:+ String.concat "," reps +:+ "]}".

(** The response-shape rule of the resource resolver, for the entities
    that survived lookup and filtering.  The projection of an Item or an
    Album is a mapping, so the lone entity is answered with a bare
    object. *)
Definition response_shape (getsize : string -> option N) (name : string)
    (entities : list obj) (r : result response) : Prop :=
  match entities with
  | [] => r = Raise (HTTPException 404)
  | [e] =>
      exists v, _rep getsize e false = Ok v
        /\ r = Ok (Jsonify v)
        /\ match e with
           | OOther _ => v = VNone
           | _ => exists d, v = VDict d
           end
  | _ :: _ :: _ =>
      r = Ok (Streamed (json_generator getsize entities name) application_json)
  end.

(** The fragments a streamed response sends; a [jsonify] response is not
    streamed. *)
Definition yielded_body (r : response) : list string :=
  match r with
  | Streamed body _ => yielded body
  | Jsonify _ => []
  end.

(** A small backend: two tracks of known size and the album holding them. *)
Module Example.

Definition getsize (p : string) : option N :=
  if String.eqb p "A.mp3" then Some 1000%N
  else if String.eqb p "B.mp3" then Some 2000%N
  else None.

Definition track (id : Z) (path : string) : obj :=
  OItem path {[ "id" := VInt id ]}.

Definition album : obj :=
  OAlbum (Some "cover.jpg") {[ "id" := VInt 7 ]}
         [track 1 "A.mp3"; track 2 "B.mp3"].

Definition lib : library := {|
  lib_get_item := fun i =>
    if i =? 1 then Some (track 1 "A.mp3")
    else if i =? 2 then Some (track 2 "B.mp3")
    else None;
  lib_get_album := fun i => if i =? 7 then Some album else None;
  lib_items := fun _ => [track 1 "A.mp3"; track 2 "B.mp3"];
  lib_albums := fun _ => [album]
|}.

End Example.

(** The projector on values, under a name that [Store._rep] does not
    shadow. *)
Abbreviation pure_rep := _rep.

(* ===================================================================== *)
(** ** The projector on a store of mutable objects                        *)
(* ===================================================================== *)

(** To speak of what [_rep] leaves untouched, objects live in a store and
    are named by references.  [dict(obj)] allocates a new object; [del
    out[k]] and [out[k] = v] update the object their first operand refers
    to, whichever that is. *)
Module Store.

Definition loc : Type := positive.

(** What an object holds under a key: an immutable value, or the list
    built by the comprehension, whose elements are references to the
    per-track results ([None] where [_rep] returned [None]). *)
Inductive slot : Type :=
| Imm (v : value)
| Refs (l : list (option loc)).

(** The objects of the store.  A library record is the mapping of its
    fields, the [path] of an Item and the [artpath] of an Album among
    them, and an Album also knows the references its [items()] returns.
    Records and plain dicts alike are mutable: item assignment and item
    deletion change whichever object they are applied to. *)
Inductive cell : Type :=
| Item (fields : gmap string slot)
| Album (fields : gmap string slot) (tracks : list loc)
| Other (fields : gmap string slot)
| Dict (d : gmap string slot).

Abbreviation heap := (gmap loc cell).

(** Computations on the store that may raise. *)
Definition M (A : Type) : Type := heap -> result A * heap.

#[global] Instance M_ret : MRet M := fun A a h => (Ok a, h).
#[global] Instance M_bind : MBind M := fun A B k m h =>
  match m h with
  | (Ok a, h') => k a h'
  | (Raise e, h') => (Raise e, h')
  end.

Definition raise {A} (e : exn) : M A := fun h => (Raise e, h).

(** Following a reference.  Python has no dangling references; one that
    names nothing is answered with [TypeError]. *)
Definition get (l : loc) : M cell := fun h =>
  match h !! l with
  | Some c => (Ok c, h)
  | None => (Raise TypeError, h)
  end.

Definition alloc (c : cell) : M loc := fun h =>
  let l := fresh (dom h) in (Ok l, <[l := c]> h).

(** The keys and values of an object. *)
Definition items_of (c : cell) : gmap string slot :=
  match c with
  | Item fields => fields
  | Album fields _ => fields
  | Other fields => fields
  | Dict d => d
  end.

(** The same object with other keys and values. *)
Definition with_items (c : cell) (d : gmap string slot) : cell :=
  match c with
  | Item _ => Item d
  | Album _ tracks => Album d tracks
  | Other _ => Other d
  | Dict _ => Dict d
  end.

(** [dict(obj)]: a new object with the keys and values of [obj]. *)
Definition dict (obj : loc) : M loc :=
  c ← get obj;
  alloc (Dict (items_of c)).

(** [del x[k]], on whatever object [x] refers to. *)
Definition delitem (x : loc) (k : string) : M unit := fun h =>
  match h !! x with
  | Some c =>
      match items_of c !! k with
      | Some _ => (Ok tt, <[x := with_items c (delete k (items_of c))]> h)
      | None => (Raise (KeyError k), h)
      end
  | None => (Raise TypeError, h)
  end.

(** [x[k] = v], on whatever object [x] refers to. *)
Definition setitem (x : loc) (k : string) (v : slot) : M unit := fun h =>
  match h !! x with
  | Some c => (Ok tt, <[x := with_items c (<[k := v]> (items_of c))]> h)
  | None => (Raise TypeError, h)
  end.

(** [obj.path], as a string handed to the size probe. *)
Definition getattr_path (obj : loc) : M string := fun h =>
  match h !! obj with
  | Some c =>
      match items_of c !! "path" with
      | Some (Imm (VStr p)) => (Ok p, h)
      | Some _ => (Raise TypeError, h)
      | None => (Raise AttributeError, h)
      end
  | None => (Raise TypeError, h)
  end.

(** [[f(x) for x in l]]. *)
Definition for_each {A B} (f : A -> M B) : list A -> M (list B) :=
  fix go (l : list A) : M (list B) :=
    match l with
    | [] => mret []
    | x :: l' =>
        v ← f x;
        vs ← go l';
        mret (v :: vs)
    end.

Section Rep.

Variable getsize : string -> option N.

(** The body of [_rep], with [self] for the call [_rep(item)] it makes. *)
Definition _rep_body (self : loc -> bool -> M (option loc))
    (obj : loc) (expand : bool) : M (option loc) :=
  out ← dict obj;
  c ← get obj;
  match c with
  | Item _ =>
      _ ← delitem out "path";
      path ← getattr_path obj;
      _ ← match getsize path with
          | Some n => setitem out "size" (Imm (VInt (Z.of_N n)))
          | None => setitem out "size" (Imm (VInt 0))
          end;
      mret (Some out)
  | Album _ tracks =>
      _ ← delitem out "artpath";
      if expand then
        reps ← for_each (fun item => self item false) tracks;
        _ ← setitem out "items" (Refs reps);
        mret (Some out)
      else mret (Some out)
  | _ => mret None
  end.

(** A call that is never made. *)
Definition no_call : loc -> bool -> M (option loc) :=
  fun _ _ => raise TypeError.

(** [_rep] calls itself only with [expand=False], and a call with
    [expand=False] calls nothing: two unfoldings of the body are the
    whole function ([rep_unfold] below is its recursive equation). *)
Definition _rep : loc -> bool -> M (option loc) :=
  _rep_body (_rep_body no_call).

(** The projector with one change: [out = obj] in place of
    [out = dict(obj)], so that [out] is the record itself. *)
Definition _rep_aliasing (obj : loc) : M (option loc) :=
  let out := obj in
  c ← get obj;
  match c with
  | Item _ =>
      _ ← delitem out "path";
      mret (Some out)
  | Album _ _ =>
      _ ← delitem out "artpath";
      mret (Some out)
  | _ => mret None
  end.

End Rep.

(** The store holds at [l] the record [o], tracks included. *)
Inductive holds (h : heap) : loc -> obj -> Prop :=
| holds_item l path fields :
    h !! l = Some (Item (Imm <$> <["path" := VStr path]> fields)) ->
    holds h l (OItem path fields)
| holds_album l artpath fields refs tracks :
    h !! l = Some (Album (Imm <$> <["artpath" := opt_str artpath]> fields) refs) ->
    Forall2 (holds h) refs tracks ->
    holds h l (OAlbum artpath fields tracks)
| holds_other l fields :
    h !! l = Some (Other (Imm <$> fields)) -> holds h l (OOther fields).

(** The store holds at [r] the result [v] of a projection made without
    expansion. *)
Definition holds_flat (h : heap) (r : option loc) (v : value) : Prop :=
  match r, v with
  | None, VNone => True
  | Some l, VDict d => h !! l = Some (Dict (Imm <$> d))
  | _, _ => False
  end.

(** The store holds at [r] the result [v] of a projection. *)
Definition holds_result (h : heap) (r : option loc) (v : value) : Prop :=
  match r, v with
  | None, VNone => True
  | Some l, VDict d =>
      exists s, h !! l = Some (Dict s)
        /\ forall k,
             match s !! k, d !! k with
             | None, None => True
             | Some (Imm x), Some y => x = y
             | Some (Refs rs), Some (VList vs) => Forall2 (holds_flat h) rs vs
             | _, _ => False
             end
  | _, _ => False
  end.

(** Started in a store that extends [h0], the computation [m] ends in a
    store that still extends [h0]: every object of [h0] is as it was.  A
    returned value satisfies [Q]. *)
Definition keeps {A} (h0 : heap) (m : M A) (Q : A -> Prop) : Prop :=
  forall h r h', h0 ⊆ h -> m h = (r, h') ->
    h0 ⊆ h' /\ forall a, r = Ok a -> Q a.

(** A store with the example album and its two tracks. *)
Definition example : heap :=
  <[3%positive :=
      Album (Imm <$> <["artpath" := VStr "cover.jpg"]> {[ "id" := VInt 7 ]})
            [1%positive; 2%positive]]>
    (<[2%positive := Item (Imm <$> <["path" := VStr "B.mp3"]> {[ "id" := VInt 2 ]})]>
       (<[1%positive := Item (Imm <$> <["path" := VStr "A.mp3"]> {[ "id" := VInt 1 ]})]> ∅)).

End Store.

(* ===================================================================== *)
(** ** File routes, request set-up and the plugin command                 *)
(* ===================================================================== *)

(** Number of occurrences of [c] in [s]: [s.count(c)]. *)
Fixpoint count_char (c : ascii) (s : string) : nat :=
  match s with
  | EmptyString => 0%nat
  | String c' s' => ((if Ascii.eqb c' c then 1 else 0) + count_char c s')%nat
  end.

(** The record with the result of its [items()] emptied; an [Item] or
    another object is left as it is. *)
Definition forget_tracks (o : obj) : obj :=
  match o with
  | OAlbum artpath fields _ => OAlbum artpath fields []
  | _ => o
  end.

(** [os.path.basename(p)] with the separator [/]: what follows the last
    slash. *)
Definition basename (p : string) : string := List.last (split slash p) EmptyString.

Module Serving.

(** The exceptions of this part of the module. [SendFileError] stands
    for whatever [flask.send_file] raises, [ConfigTypeError] for what a
    typed read of the configuration raises, [ServerError] for whatever
    [app.run] raises. *)
Inductive error : Type :=
| AttributeError
| ValueError
| OSError
| SendFileError
| ConfigTypeError
| ServerError.

Inductive outcome (A : Type) : Type :=
| Done (a : A)
| Failed (e : error).
Arguments Done {A} a.
Arguments Failed {A} e.

#[global] Instance outcome_ret : MRet outcome := fun A a => Done a.
#[global] Instance outcome_bind : MBind outcome := fun A B k r =>
  match r with
  | Done a => k a
  | Failed e => Failed e
  end.

(** The response of [flask.send_file]: the arguments it was given and
    the headers set on it afterwards. *)
Record file_response : Type := {
  sent_file : option string;
  as_attachment : bool;
  attachment_filename : option string;
  headers : gmap string value
}.

(** [response.headers[k] = v]. *)
Definition set_header (k : string) (v : value) (r : file_response) : file_response :=
  {| sent_file := sent_file r;
     as_attachment := as_attachment r;
     attachment_filename := attachment_filename r;
     headers := <[k := v]> (headers r) |}.

(** [obj.path]: only an [Item] has the attribute. *)
Definition attr_path (o : option obj) : outcome string :=
  match o with
  | Some (OItem path _) => Done path
  | _ => Failed AttributeError
  end.

(** [obj.artpath]: only an [Album] has the attribute; its value may be
    [None]. *)
Definition attr_artpath (o : option obj) : outcome (option string) :=
  match o with
  | Some (OAlbum artpath _ _) => Done artpath
  | _ => Failed AttributeError
  end.

Section Files.

(** [flask.send_file(filename, as_attachment=..., attachment_filename=...)]. *)
Variable send_file : option string -> bool -> option string -> outcome file_response.

(** [os.path.getsize(p)]: [None] is [OSError]. *)
Variable getsize : string -> option N.

Definition os_path_getsize (p : string) : outcome N :=
  match getsize p with
  | Some n => Done n
  | None => Failed OSError
  end.

(** The route [/item/<int:item_id>/file]. *)
Definition item_file (lib : library) (item_id : Z) : outcome file_response :=
  let item := lib_get_item lib item_id in
  path ← attr_path item;
  path' ← attr_path item;
  response ← send_file (Some path) true (Some (basename path'));
  path'' ← attr_path item;
  size ← os_path_getsize path'';
  Done (set_header "Content-Length" (VInt (Z.of_N size)) response).

(** The route [/album/<int:album_id>/art]. *)
Definition album_art (lib : library) (album_id : Z) : outcome file_response :=
  let album := lib_get_album lib album_id in
  artpath ← attr_artpath album;
  send_file artpath false None.

End Files.

(** [self.config] of the plugin: what is configured under [host] and
    [port], by the defaults or by the user. *)
Record settings : Type := {
  host : value;
  port : value
}.

(** The defaults [WebPlugin.__init__] adds. *)
Definition defaults : settings := {| host := VStr ""; port := VInt 8337 |}.

(** [view.get(unicode)] and [view.get(int)]: the configured value, if it
    is of the type asked for ([bool] is a subtype of [int]). *)
Definition get_unicode (v : value) : outcome string :=
  match v with
  | VStr s => Done s
  | _ => Failed ConfigTypeError
  end.

Definition get_int (v : value) : outcome Z :=
  match v with
  | VInt n => Done n
  | VBool b => Done (Z.b2z b)
  | _ => Failed ConfigTypeError
  end.

(** The call [app.run(host=..., port=..., debug=..., threaded=True)]. *)
Record run_call : Type := {
  run_host : string;
  run_port : Z;
  run_debug : bool;
  run_threaded : bool
}.

(** What the command leaves behind, whether it returns or raises:
    [self.config] and [app.config]. *)
Record after : Type := {
  plugin_config : settings;
  app_config : gmap string library
}.

Section Command.

Variable int : string -> option Z.

(** [app.run(...)]: it returns when the server stops, or raises. *)
Variable app_run : run_call -> outcome unit.

Definition py_int (s : string) : outcome Z :=
  match int s with
  | Some n => Done n
  | None => Failed ValueError
  end.

(** [if args: self.config['host'] = args.pop(0)]. *)
Definition take_host (config : settings) (args : list string)
    : settings * list string :=
  match args with
  | a :: args' => ({| host := VStr a; port := port config |}, args')
  | [] => (config, args)
  end.

(** [if args: self.config['port'] = int(args.pop(0))]. *)
Definition take_port (config : settings) (args : list string)
    : outcome (settings * list string) :=
  match args with
  | a :: args' =>
      n ← py_int a;
      Done ({| host := host config; port := VInt n |}, args')
  | [] => Done (config, args)
  end.

(** The function [func] of the [web] subcommand, given [self.config],
    [app.config], the library, [opts.debug] and the decoded arguments:
    the call of [app.run] it returned from, or the exception that
    escaped, and what it left behind. *)
Definition func (config : settings) (app : gmap string library)
    (lib : library) (debug : bool) (args : list string)
    : outcome run_call * after :=
  let '(config, args) := take_host config args in
  match take_port config args with
  | Failed e => (Failed e, {| plugin_config := config; app_config := app |})
  | Done (config, args) =>
      let app := <["lib" := lib]> app in
      (h ← get_unicode (host config);
       p ← get_int (port config);
       let call := {| run_host := h; run_port := p;
                      run_debug := debug; run_threaded := true |} in
       _ ← app_run call;
       Done call,
       {| plugin_config := config; app_config := app |})
  end.

End Command.

End Serving.

(** A [send_file] that always answers, and the response the file route
    then gives for track 1 of the example backend. *)
Module ServingExample.

Definition send_file (f : option string) (a : bool) (n : option string)
    : Serving.outcome Serving.file_response :=
  Serving.Done {| Serving.sent_file := f;
                  Serving.as_attachment := a;
                  Serving.attachment_filename := n;
                  Serving.headers := ∅ |}.

Definition response : Serving.file_response :=
  {| Serving.sent_file := Some "A.mp3";
     Serving.as_attachment := true;
     Serving.attachment_filename := Some "A.mp3";
     Serving.headers := {[ "Content-Length" := VInt 1000 ]} |}.

End ServingExample.

(** The resource responder over a backend whose lookups may raise. *)
Module Backend.

(** What a call [retriever(id)] does: it returns a record or [None], or
    an exception of the backend escapes it. *)
Inductive lookup (failure : Type) : Type :=
| Returned (o : option obj)
| Raised (b : failure).
Arguments Returned {failure} o.
Arguments Raised {failure} b.

(** What a responder does: it answers, or an exception escapes it, one of
    this module ([Own]) or one of the backend ([FromBackend]). *)
Inductive outcome (failure : Type) : Type :=
| Answered (r : response)
| Own (e : exn)
| FromBackend (b : failure).
Arguments Answered {failure} r.
Arguments Own {failure} e.
Arguments FromBackend {failure} b.

Definition of_result {failure} (r : result response) : outcome failure :=
  match r with
  | Ok a => Answered a
  | Raise e => Own e
  end.

(** [[retriever(id) for id in entity_ids]]: the first lookup that raises
    ends the comprehension. *)
Fixpoint lookups {failure} (retriever : Z -> lookup failure) (ids : list Z)
    : failure + list (option obj) :=
  match ids with
  | [] => inr []
  | id :: ids' =>
      match retriever id with
      | Raised b => inl b
      | Returned o =>
          match lookups retriever ids' with
          | inl b => inl b
          | inr os => inr (o :: os)
          end
      end
  end.

Section Responder.

Context {failure : Type}.
Variable int : string -> option Z.
Variable getsize : string -> option N.

(** The responder made by [resource(name)(retriever)]. *)
Definition resource (name : string) (retriever : Z -> lookup failure)
    (entity_ids : string) : outcome failure :=
  let entity_ids := _extract_ids int entity_ids in
  match lookups retriever entity_ids with
  | inl b => FromBackend b
  | inr entities =>
      let entities := truthy entities in
      of_result
        (if Nat.eqb (length entities) 1 then
           e ← first_of entities;
           v ← _rep getsize e false;
           Ok (flask_jsonify v)
         else if negb (Nat.eqb (length entities) 0) then
           Ok (Streamed (json_generator getsize entities name) application_json)
         else flask_abort 404)
  end.

End Responder.

End Backend.

(** [before_request]: [g.lib = app.config['lib']]. *)
Definition before_request (app : gmap string library) : result library :=
  match app !! "lib" with
  | Some lib => Ok lib
  | None => Raise (KeyError "lib")
  end.

(* ===================================================================== *)
(** ** Facts about [split]                                                *)
(* ===================================================================== *)

Section SplitFacts.

Variable sep : ascii.

Lemma split_not_nil (s : string) : split sep s <> [].
Proof.
  destruct s as [|c s]; simpl; [discriminate|].
  destruct (Ascii.eqb c sep); [discriminate|].
  destruct (split sep s); discriminate.
Qed.

(** Joining the tokens with the separator gives the input back. *)
Lemma split_join (s : string) :
  String.concat (String sep EmptyString) (split sep s) = s.
Proof.
  induction s as [|c s IH]; simpl; [reflexivity|].
  destruct (Ascii.eqb_spec c sep) as [->|Hne].
  - pose proof (split_not_nil s) as Hnil.
    simpl. destruct (split sep s) as [|t ts]; [contradiction|].
    simpl in *. now rewrite IH.
  - pose proof (split_not_nil s) as Hnil.
    destruct (split sep s) as [|t ts]; [contradiction|].
    simpl in *. destruct ts; simpl in *; now rewrite <- IH.
Qed.

(** No token contains the separator. *)
Lemma split_no_sep (s : string) :
  Forall (fun t => contains sep t = false) (split sep s).
Proof.
  induction s as [|c s IH]; simpl.
  - repeat constructor.
  - destruct (Ascii.eqb_spec c sep) as [->|Hne].
    + constructor; [reflexivity|assumption].
    + destruct (split sep s) as [|t ts].
      * repeat constructor. simpl.
        destruct (Ascii.eqb_spec c sep); [contradiction|reflexivity].
      * inversion IH; subst. constructor; [|assumption].
        simpl. destruct (Ascii.eqb_spec c sep); [contradiction|assumption].
Qed.

Lemma split_token (t : string) :
  contains sep t = false -> split sep t = [t].
Proof.
  induction t as [|c t IH]; simpl; [reflexivity|].
  destruct (Ascii.eqb c sep); simpl; [discriminate|].
  intros H. now rewrite (IH H).
Qed.

(** Splitting distributes over a separator placed between two strings. *)
Lemma split_app (s1 s2 : string) :
  split sep (s1 +:+ String sep s2) = (split sep s1 ++ split sep s2)%list.
Proof.
  induction s1 as [|c s1 IH]; simpl.
  - now rewrite Ascii.eqb_refl.
  - destruct (Ascii.eqb c sep); simpl.
    + now rewrite IH.
    + rewrite IH. pose proof (split_not_nil s1) as Hnil.
      destruct (split sep s1); [contradiction|reflexivity].
Qed.

(** [split] inverts joining: it returns any separator-free tokens it
    was built from. *)
Lemma split_concat (t : string) (ts : list string) :
  Forall (fun t => contains sep t = false) (t :: ts) ->
  split sep (String.concat (String sep EmptyString) (t :: ts)) = t :: ts.
Proof.
  revert t. induction ts as [|u ts IH]; intros t Hall.
  - simpl. apply split_token. now inversion Hall.
  - inversion Hall as [|? ? Ht Hrest]; subst.
    change (String.concat (String sep "") (t :: u :: ts))
      with (t +:+ String sep (String.concat (String sep "") (u :: ts))).
    rewrite split_app, (split_token t Ht), (IH u Hrest). reflexivity.
Qed.

End SplitFacts.

(* ===================================================================== *)
(** ** The id-list parser                                                 *)
(* ===================================================================== *)

Section ExtractIds.

Variable int : string -> option Z.

(** The loop, started from any list of ids already collected. *)
Lemma extract_loop (tokens : list string) (ids : list Z) :
  fold_left
    (fun (ids : list Z) (id : string) =>
       match int id with
       | Some n => (ids ++ [n])%list
       | None => ids
       end) tokens ids
  = (ids ++ omap int tokens)%list.
Proof.
  revert ids. induction tokens as [|t tokens IH]; intros ids; simpl.
  - now rewrite app_nil_r.
  - rewrite IH. destruct (int t); [|reflexivity].
    now rewrite <- app_assoc.
Qed.

Lemma extract_ids_omap (s : string) :
  _extract_ids int s = omap int (split comma s).
Proof. unfold _extract_ids. now rewrite extract_loop. Qed.

Lemma extract_ids_app (s1 s2 : string) :
  _extract_ids int (s1 +:+ String comma s2)
  = (_extract_ids int s1 ++ _extract_ids int s2)%list.
Proof. now rewrite !extract_ids_omap, split_app, omap_app. Qed.

Lemma count_occ_omap (n : Z) (tokens : list string) :
  count_occ Z.eq_dec (omap int tokens) n
  = length (filter (fun t => int t = Some n) tokens).
Proof.
  induction tokens as [|t tokens IH]; [reflexivity|].
  rewrite filter_cons. cbn [omap list_omap].
  fold (omap int tokens).
  destruct (int t) as [m|] eqn:Hm.
  - cbn [count_occ]. destruct (Z.eq_dec m n) as [->|Hne].
    + rewrite decide_True by reflexivity. simpl. now rewrite IH.
    + rewrite decide_False by congruence. exact IH.
  - rewrite decide_False by discriminate. exact IH.
Qed.

End ExtractIds.

(** C3. For every input string [s], [_extract_ids s] is exactly the list
    of the comma-separated tokens of [s] that [int] accepts, converted, in
    their input order; the tokens are those of [str.split]: joined by
    commas they give [s] back and none contains a comma.  The function is
    total (it returns a list for every string), and since [int] rejects
    the empty token the empty string yields the empty list. *)
Theorem extract_ids_spec (int : string -> option Z) (s : string)
    (int_empty : int "" = None) :
  _extract_ids int s = omap int (split comma s)
  /\ String.concat "," (split comma s) = s
  /\ Forall (fun t => contains comma t = false) (split comma s)
  /\ (forall n, n ∈ _extract_ids int s <->
                exists t, t ∈ split comma s /\ int t = Some n)
  /\ _extract_ids int "" = [].
Proof.
  split; [apply extract_ids_omap|].
  split; [apply split_join|].
  split; [apply split_no_sep|].
  split.
  - intros n. rewrite extract_ids_omap, list_elem_of_omap. reflexivity.
  - rewrite extract_ids_omap. simpl. now rewrite int_empty.
Qed.

(** The example of the specification, with the decimal reading of [int]. *)
Lemma extract_ids_spec_witness :
  IntLiteral.int "" = None
  /\ _extract_ids IntLiteral.int "3,x,5,,7" = [3; 5; 7]
  /\ split comma "3,x,5,,7" = ["3"; "x"; "5"; ""; "7"].
Proof.
  split; [reflexivity|].
  destruct (extract_ids_spec IntLiteral.int "3,x,5,,7" eq_refl) as [H _].
  split; [rewrite H|]; reflexivity.
Defined.

(** C5, as the code has it. The parser does not deduplicate: its output
    keeps one entry for every token that [int] accepts, in input order.
    An identifier occurs in the output as many times as there are tokens
    that parse to it, and parsing two comma-joined strings gives the
    concatenation of their parses. *)
Theorem extract_ids_keeps_duplicates (int : string -> option Z) (s : string) :
  (forall n, count_occ Z.eq_dec (_extract_ids int s) n
             = length (filter (fun t => int t = Some n) (split comma s)))
  /\ (forall s', _extract_ids int (s +:+ String comma s')
                 = (_extract_ids int s ++ _extract_ids int s')%list).
Proof.
  split.
  - intros n. rewrite extract_ids_omap. apply count_occ_omap.
  - intros s'. apply extract_ids_app.
Qed.

(** C5 fails as stated: on ["1,1"] the identifier 1 is returned twice. *)
Lemma extract_ids_not_deduplicated :
  _extract_ids IntLiteral.int "1,1" = [1; 1]
  /\ ~ NoDup (_extract_ids IntLiteral.int "1,1").
Proof.
  split; [reflexivity|].
  intros H. apply NoDup_cons_1_1 in H. apply H. vm_compute. left.
Qed.

(* ===================================================================== *)
(** ** The entity projector                                               *)
(* ===================================================================== *)

Lemma del_present (k : string) (d : gmap string value) (v : value) :
  d !! k = Some v -> del k d = Ok (delete k d).
Proof. intros H. unfold del. now rewrite H. Qed.

Lemma comprehension_cons {A B} (f : A -> result B) (x : A) (l : list A) :
  comprehension f (x :: l) = (v ← f x; vs ← comprehension f l; Ok (v :: vs)).
Proof. reflexivity. Qed.

Lemma comprehension_Forall2 {A B} (f : A -> result B) (l : list A) (vs : list B) :
  comprehension f l = Ok vs <-> Forall2 (fun x v => f x = Ok v) l vs.
Proof.
  revert vs. induction l as [|x l IH]; intros vs.
  - split.
    + intros [= <-]. constructor.
    + intros H. now inversion H.
  - rewrite comprehension_cons. split.
    + destruct (f x) as [v|e] eqn:Hx; [|discriminate].
      destruct (comprehension f l) as [ws|e] eqn:Hl; [|discriminate].
      intros [= <-]. constructor; [assumption|]. now apply IH.
    + intros H. inversion H as [|? v ? ws Hx Hrest]; subst.
      apply IH in Hrest. now rewrite Hx, Hrest.
Qed.

Section Projector.

Variable getsize : string -> option N.

Lemma probed_size_nonneg (path : string) : 0 <= probed_size getsize path.
Proof. unfold probed_size. destruct (getsize path); lia. Qed.

Lemma rep_item (path : string) (fields : gmap string value) (expand : bool) :
  _rep getsize (OItem path fields) expand
  = Ok (VDict (<["size" := VInt (probed_size getsize path)]> (delete "path" fields))).
Proof.
  destruct expand; simpl;
    rewrite (del_present _ _ (VStr path)) by apply lookup_insert_eq;
    simpl; rewrite delete_insert_eq; unfold probed_size;
    now destruct (getsize path).
Qed.

Lemma rep_album_flat (artpath : option string) (fields : gmap string value)
    (tracks : list obj) :
  _rep getsize (OAlbum artpath fields tracks) false
  = Ok (VDict (delete "artpath" fields)).
Proof.
  simpl. rewrite (del_present _ _ (opt_str artpath)) by apply lookup_insert_eq.
  simpl. now rewrite delete_insert_eq.
Qed.

Lemma rep_other (fields : gmap string value) (expand : bool) :
  _rep getsize (OOther fields) expand = Ok VNone.
Proof. now destruct expand. Qed.

(** Without expansion the projector never raises. *)
Lemma rep_flat_total (o : obj) : exists v, _rep getsize o false = Ok v.
Proof.
  destruct o as [path fields|artpath fields tracks|fields].
  - rewrite rep_item. eauto.
  - rewrite rep_album_flat. eauto.
  - rewrite rep_other. eauto.
Qed.

Lemma rep_tracks_total (tracks : list obj) :
  exists reps, comprehension (fun item => _rep getsize item false) tracks = Ok reps.
Proof.
  induction tracks as [|t tracks [reps IH]].
  - exists []. reflexivity.
  - destruct (rep_flat_total t) as [v Hv]. exists (v :: reps).
    apply comprehension_Forall2. constructor; [assumption|].
    now apply comprehension_Forall2.
Qed.

Lemma rep_album_expand (artpath : option string) (fields : gmap string value)
    (tracks : list obj) (reps : list value) :
  comprehension (fun item => _rep getsize item false) tracks = Ok reps ->
  _rep getsize (OAlbum artpath fields tracks) true
  = Ok (VDict (<["items" := VList reps]> (delete "artpath" fields))).
Proof.
  intros Hreps.
  change (_rep getsize (OAlbum artpath fields tracks) true)
    with (out ← del "artpath" (<["artpath" := opt_str artpath]> fields);
          reps ← comprehension (fun item => _rep getsize item false) tracks;
          Ok (VDict (<["items" := VList reps]> out))).
  rewrite (del_present _ _ (opt_str artpath)) by apply lookup_insert_eq.
  rewrite Hreps. simpl. now rewrite delete_insert_eq.
Qed.

(** The projector returns for every record and every flag. *)
Lemma rep_total (o : obj) (expand : bool) : exists v, _rep getsize o expand = Ok v.
Proof.
  destruct expand; [|apply rep_flat_total].
  destruct o as [path fields|artpath fields tracks|fields].
  - rewrite rep_item. eauto.
  - destruct (rep_tracks_total tracks) as [reps Hreps].
    rewrite (rep_album_expand _ _ _ _ Hreps). eauto.
  - rewrite rep_other. eauto.
Qed.

End Projector.

(** C6. For every Track record the projection succeeds and yields a
    mapping without a [path] key whose [size] key holds the byte length
    of the backing file, or 0 when the probe failed; in either case the
    size is not negative, and every other field is the record's own. *)
Theorem rep_item_path_and_size (getsize : string -> option N)
    (path : string) (fields : gmap string value) (expand : bool) :
  exists d n,
    _rep getsize (OItem path fields) expand = Ok (VDict d)
    /\ d !! "path" = None
    /\ d !! "size" = Some (VInt n)
    /\ n = match getsize path with
           | Some len => Z.of_N len
           | None => 0
           end
    /\ 0 <= n
    /\ (forall k, k <> "path" -> k <> "size" -> d !! k = fields !! k).
Proof.
  exists (<["size" := VInt (probed_size getsize path)]> (delete "path" fields)),
         (probed_size getsize path).
  split; [apply rep_item|].
  split; [now rewrite lookup_insert_ne, lookup_delete_eq|].
  split; [apply lookup_insert_eq|].
  split; [reflexivity|].
  split; [apply probed_size_nonneg|].
  intros k Hpath Hsize.
  rewrite lookup_insert_ne by congruence.
  now rewrite lookup_delete_ne by congruence.
Qed.

(** C7, as the code has it. For every Release record the projection
    removes [artpath]; with [expand] the [items] entry is the list of the
    projections of the release's tracks, in order, each made without
    expansion; without [expand] the projection adds no [items] key: the
    output has one only if the record's own fields have one, and then
    with the record's value.  All other fields are the record's own. *)
Theorem rep_album_expansion (getsize : string -> option N)
    (artpath : option string) (fields : gmap string value) (tracks : list obj) :
  (exists d reps,
      _rep getsize (OAlbum artpath fields tracks) true = Ok (VDict d)
      /\ d !! "artpath" = None
      /\ d !! "items" = Some (VList reps)
      /\ Forall2 (fun t v => _rep getsize t false = Ok v) tracks reps
      /\ (forall k, k <> "artpath" -> k <> "items" -> d !! k = fields !! k))
  /\ (exists d,
      _rep getsize (OAlbum artpath fields tracks) false = Ok (VDict d)
      /\ d !! "artpath" = None
      /\ d !! "items" = fields !! "items"
      /\ (forall k, k <> "artpath" -> d !! k = fields !! k)).
Proof.
  split.
  - destruct (rep_tracks_total getsize tracks) as [reps Hreps].
    exists (<["items" := VList reps]> (delete "artpath" fields)), reps.
    split; [now apply rep_album_expand|].
    split; [now rewrite lookup_insert_ne, lookup_delete_eq|].
    split; [apply lookup_insert_eq|].
    split; [now apply comprehension_Forall2|].
    intros k Hart Hitems.
    rewrite lookup_insert_ne by congruence.
    now rewrite lookup_delete_ne by congruence.
  - exists (delete "artpath" fields).
    split; [apply rep_album_flat|].
    split; [apply lookup_delete_eq|].
    split; [now rewrite lookup_delete_ne|].
    intros k Hart. now rewrite lookup_delete_ne by congruence.
Qed.

(** C7 fails as stated: an album whose own fields include one named
    [items] keeps it when projected without expansion. *)
Lemma rep_album_keeps_own_items :
  exists d,
    _rep Example.getsize (OAlbum None {[ "items" := VStr "x" ]} []) false
      = Ok (VDict d)
    /\ d !! "items" = Some (VStr "x")
    /\ d !! "items" <> None.
Proof.
  exists (delete "artpath" {[ "items" := VStr "x" ]}).
  split; [apply rep_album_flat|].
  split; [reflexivity|discriminate].
Qed.

(* ===================================================================== *)
(** ** The streaming encoder                                              *)
(* ===================================================================== *)

Lemma append_empty_r (s : string) : s +:+ "" = s.
Proof.
  induction s as [|c s IH]; [reflexivity|].
  change (String c (s +:+ "") = String c s). now rewrite IH.
Qed.

Lemma append_assoc (s1 s2 s3 : string) : (s1 +:+ s2) +:+ s3 = s1 +:+ s2 +:+ s3.
Proof.
  induction s1 as [|c s1 IH]; [reflexivity|].
  change (String c ((s1 +:+ s2) +:+ s3) = String c (s1 +:+ s2 +:+ s3)).
  now rewrite IH.
Qed.

Lemma join_fragments_app (l1 l2 : list string) :
  join_fragments (l1 ++ l2) = join_fragments l1 +:+ join_fragments l2.
Proof.
  unfold join_fragments. induction l1 as [|x l1 IH]; [reflexivity|].
  destruct l1 as [|y l1].
  - destruct l2; cbn; [now rewrite append_empty_r | reflexivity].
  - change (String.concat "" ((x :: y :: l1) ++ l2))
      with (x +:+ "" +:+ String.concat "" ((y :: l1) ++ l2)).
    change (String.concat "" (x :: y :: l1))
      with (x +:+ "" +:+ String.concat "" (y :: l1)).
    rewrite IH. cbn. now rewrite append_assoc.
Qed.

Lemma join_fragments_cons (x : string) (l : list string) :
  join_fragments (x :: l) = x +:+ join_fragments l.
Proof. apply (join_fragments_app [x] l). Qed.

(** Commas interleaved as separate fragments read as a comma-joined
    string. *)
Lemma join_comma_fragments (r : string) (rs : list string) :
  join_fragments (r :: flat_map (fun x => [","; x]) rs) = String.concat "," (r :: rs).
Proof.
  revert r. induction rs as [|r' rs IH]; intros r.
  - reflexivity.
  - change (flat_map (fun x => [","; x]) (r' :: rs))
      with ("," :: r' :: flat_map (fun x => [","; x]) rs).
    rewrite !join_fragments_cons, <- (join_fragments_cons r'), IH.
    reflexivity.
Qed.

Lemma join_spec_fragments (root : string) (reps : list string) :
  join_fragments (spec_fragments root reps) = eager_json root reps.
Proof.
  unfold spec_fragments, eager_json.
  rewrite join_fragments_cons, join_fragments_app. f_equal. f_equal.
  destruct reps as [|r rs]; [reflexivity|apply join_comma_fragments].
Qed.

Section Encoder.

Variable getsize : string -> option N.

(** After the first entity every entity is preceded by a comma. *)
Lemma generator_loop_rest (items : list obj) (reps : list value) :
  Forall2 (fun e v => _rep getsize e false = Ok v) items reps ->
  completes (json_generator_loop getsize false items) = true
  /\ yielded (json_generator_loop getsize false items)
     = (flat_map (fun x => [","; x]) (map Json.dumps reps) ++ ["]}"])%list.
Proof.
  induction 1 as [|e v items reps He _ [IHc IHy]]; simpl.
  - split; reflexivity.
  - rewrite He. simpl. rewrite IHy. split; [assumption|reflexivity].
Qed.

Lemma generator_fragments (items : list obj) (reps : list value) (root : string) :
  Forall2 (fun e v => _rep getsize e false = Ok v) items reps ->
  completes (json_generator getsize items root) = true
  /\ yielded (json_generator getsize items root)
     = spec_fragments root (map Json.dumps reps).
Proof.
  intros H. unfold json_generator, spec_fragments, opening.
  destruct H as [|e v items reps He Hrest]; simpl.
  - split; reflexivity.
  - rewrite He. simpl.
    destruct (generator_loop_rest items reps Hrest) as [Hc Hy].
    rewrite Hy. split; [assumption|reflexivity].
Qed.

Lemma projections_exist (items : list obj) :
  exists reps, Forall2 (fun e v => _rep getsize e false = Ok v) items reps.
Proof.
  destruct (rep_tracks_total getsize items) as [reps H].
  exists reps. now apply comprehension_Forall2.
Qed.

Lemma generator_body (items : list obj) (reps : list value) (root : string) :
  Forall2 (fun e v => _rep getsize e false = Ok v) items reps ->
  join_fragments (yielded (json_generator getsize items root))
  = eager_json root (map Json.dumps reps).
Proof.
  intros H. destruct (generator_fragments items reps root H) as [_ ->].
  apply join_spec_fragments.
Qed.

End Encoder.

(** C2. For every finite sequence of entities and every root name the
    encoder runs to completion, yields the opening fragment, the
    serialized projections with a comma before each but the first and the
    closing fragment, and the concatenation of what it yields is the
    eager serialization of the projected entities under the root; for no
    entities and root [items] that is the text [{"items":[]}]. *)
Theorem json_generator_matches_eager (getsize : string -> option N)
    (items : list obj) (root : string) :
  (exists reps,
      Forall2 (fun e v => _rep getsize e false = Ok v) items reps
      /\ completes (json_generator getsize items root) = true
      /\ yielded (json_generator getsize items root)
         = spec_fragments root (map Json.dumps reps)
      /\ join_fragments (yielded (json_generator getsize items root))
         = eager_json root (map Json.dumps reps))
  /\ join_fragments (yielded (json_generator getsize [] "items"))
     = "{" +:+ Json.dquote +:+ "items" +:+ Json.dquote +:+ ":[]}".
Proof.
  split; [|reflexivity].
  destruct (projections_exist getsize items) as [reps Hreps].
  exists reps. split; [assumption|].
  destruct (generator_fragments getsize items reps root Hreps) as [Hc Hy].
  split; [assumption|]. split; [assumption|].
  now apply generator_body.
Qed.

(** C10. A record that is neither an Item nor an Album projects to
    [None], whatever the flag, not to a copy of its fields; serialized,
    that is the text [null], and that is the fragment the encoder yields
    for it. *)
Theorem rep_other_is_none (getsize : string -> option N)
    (fields : gmap string value) (expand : bool) (root : string) :
  _rep getsize (OOther fields) expand = Ok VNone
  /\ _rep getsize (OOther fields) expand <> Ok (VDict (dict (OOther fields)))
  /\ Json.dumps VNone = "null"
  /\ yielded (json_generator getsize [OOther fields] root)
     = [opening root; "null"; "]}"].
Proof.
  split; [apply rep_other|].
  split; [rewrite rep_other; discriminate|].
  split; reflexivity.
Qed.

(* ===================================================================== *)
(** ** The responders                                                     *)
(* ===================================================================== *)

Lemma truthy_omap {A} (retriever : A -> option obj) (ids : list A) :
  truthy (map retriever ids) = omap retriever ids.
Proof.
  induction ids as [|i ids IH]; [reflexivity|].
  cbn [map truthy omap list_omap]. fold (omap retriever ids).
  destruct (retriever i); now rewrite IH.
Qed.

Lemma resource_shape (int : string -> option Z) (getsize : string -> option N)
    (name : string) (retriever : Z -> option obj) (entity_ids : string) :
  response_shape getsize name
    (omap retriever (_extract_ids int entity_ids))
    (resource int getsize name retriever entity_ids).
Proof.
  unfold resource. rewrite truthy_omap.
  destruct (omap retriever (_extract_ids int entity_ids)) as [|e [|e' rest]].
  - reflexivity.
  - cbn [length Nat.eqb first_of response_shape mbind result_bind].
    destruct e as [path fields|artpath fields tracks|fields].
    + eexists. split; [apply rep_item|]. rewrite rep_item. eauto.
    + eexists. split; [apply rep_album_flat|]. rewrite rep_album_flat. eauto.
    + eexists. split; [apply rep_other|]. rewrite rep_other. eauto.
  - reflexivity.
Qed.

Lemma error_page_not_empty (code : nat) : error_page code <> "".
Proof. discriminate. Qed.

(** C1, as the code has it. For every id-list string and every lookup
    function, with the entities being the lookups that returned a record,
    in order: none gives the 404 abort, whose response body is Werkzeug's
    page for the error and not empty; exactly one gives [jsonify] of that
    entity's projection, a bare object; two or more give the streamed
    encoder output under the responder's root name, whose text is the
    eager wrapping of the projections.  The item route uses the root
    [items] and the album route the root [albums]. *)
Theorem resource_response_shape (int : string -> option Z)
    (getsize : string -> option N) (name : string)
    (retriever : Z -> option obj) (lib : library) (entity_ids : string) :
  response_shape getsize name
    (omap retriever (_extract_ids int entity_ids))
    (resource int getsize name retriever entity_ids)
  /\ response_shape getsize "items"
       (omap (lib_get_item lib) (_extract_ids int entity_ids))
       (get_item int getsize lib entity_ids)
  /\ response_shape getsize "albums"
       (omap (lib_get_album lib) (_extract_ids int entity_ids))
       (get_album int getsize lib entity_ids)
  /\ (exists reps,
        Forall2 (fun e v => _rep getsize e false = Ok v)
                (omap retriever (_extract_ids int entity_ids)) reps
        /\ join_fragments
             (yielded (json_generator getsize
                         (omap retriever (_extract_ids int entity_ids)) name))
           = eager_json name (map Json.dumps reps))
  /\ match omap retriever (_extract_ids int entity_ids) with
     | [] =>
         abort_body (resource int getsize name retriever entity_ids)
           = Some (error_page 404)
         /\ error_page 404 <> ""
     | _ :: _ =>
         abort_body (resource int getsize name retriever entity_ids) = None
     end.
Proof.
  split; [apply resource_shape|].
  split; [apply resource_shape|].
  split; [apply resource_shape|].
  split.
  - destruct (projections_exist getsize
                (omap retriever (_extract_ids int entity_ids))) as [reps Hreps].
    exists reps. split; [assumption|]. now apply generator_body.
  - pose proof (resource_shape int getsize name retriever entity_ids) as Hshape.
    destruct (omap retriever (_extract_ids int entity_ids)) as [|x [|y rest]];
      cbn [response_shape] in Hshape.
    + rewrite Hshape. split; [reflexivity|apply error_page_not_empty].
    + destruct Hshape as (v & _ & -> & _). reflexivity.
    + rewrite Hshape. reflexivity.
Qed.

(** C1 fails as stated: for an id the library does not have, the item
    route aborts with 404 and the body sent is the error page, which is
    not empty. *)
Lemma resource_not_found_body_not_empty :
  get_item IntLiteral.int Example.getsize Example.lib "99"
    = Raise (HTTPException 404)
  /\ abort_body (get_item IntLiteral.int Example.getsize Example.lib "99")
     = Some (error_page 404)
  /\ abort_body (get_item IntLiteral.int Example.getsize Example.lib "99")
     <> Some "".
Proof.
  split; [reflexivity|]. split; [reflexivity|].
  intros H. vm_compute in H. discriminate H.
Qed.

(** C9. For every raw query string the query responder splits it on
    slashes (the segments joined by slashes give the string back and none
    contains a slash), hands exactly these segments to the backend query
    function, and streams what that function returns through the encoder
    under the root [results]. *)
Theorem resource_query_streams_results (getsize : string -> option N)
    (name : string) (query_func : list string -> list obj) (query : string) :
  String.concat "/" (split slash query) = query
  /\ Forall (fun part => contains slash part = false) (split slash query)
  /\ resource_query getsize name query_func query
     = Streamed (json_generator getsize (query_func (split slash query)) "results")
                application_json
  /\ (exists reps,
        Forall2 (fun e v => _rep getsize e false = Ok v)
                (query_func (split slash query)) reps
        /\ completes (json_generator getsize (query_func (split slash query))
                        "results") = true
        /\ join_fragments
             (yielded (json_generator getsize (query_func (split slash query))
                         "results"))
           = eager_json "results" (map Json.dumps reps)).
Proof.
  split; [apply split_join|].
  split; [apply split_no_sep|].
  split; [reflexivity|].
  destruct (projections_exist getsize (query_func (split slash query)))
    as [reps Hreps].
  exists reps. split; [assumption|].
  destruct (generator_fragments getsize _ reps "results" Hreps) as [Hc _].
  split; [assumption|]. now apply generator_body.
Qed.

(** C4, on the code. The responder made by [resource_list] never calls
    the function it decorates: whatever [list_all] is, it streams
    [g.lib.items()].  On the example backend the album collection route
    therefore streams the two tracks under the root [albums], not the
    album. *)
Theorem all_albums_streams_items :
  (forall getsize name list_all lib,
      resource_list getsize name list_all lib
      = Streamed (json_generator getsize (lib_items lib None) name)
                 application_json)
  /\ yielded_body (all_albums Example.getsize Example.lib)
     = yielded (json_generator Example.getsize
                  [Example.track 1 "A.mp3"; Example.track 2 "B.mp3"] "albums")
  /\ yielded_body (all_albums Example.getsize Example.lib)
     <> yielded (json_generator Example.getsize
                   (lib_albums Example.lib None) "albums").
Proof.
  split; [reflexivity|].
  split; [reflexivity|].
  intros H. vm_compute in H. discriminate H.
Qed.

(* ===================================================================== *)
(** ** The projector on the store: what it leaves alone                   *)
(* ===================================================================== *)

Module StoreFacts.
Import Store.

Lemma keeps_ret {A} (h0 : heap) (a : A) (Q : A -> Prop) :
  Q a -> keeps h0 (mret a) Q.
Proof.
  intros HQ h r h' Hsub [= <- <-]. split; [assumption|].
  now intros a' [= <-].
Qed.

Lemma keeps_raise {A} (h0 : heap) (e : exn) (Q : A -> Prop) :
  keeps h0 (raise e) Q.
Proof. intros h r h' Hsub [= <- <-]. split; [assumption|discriminate]. Qed.

Lemma keeps_bind {A B} (h0 : heap) (m : M A) (k : A -> M B)
    (Q : A -> Prop) (R : B -> Prop) :
  keeps h0 m Q -> (forall a, Q a -> keeps h0 (k a) R) -> keeps h0 (m ≫= k) R.
Proof.
  intros Hm Hk h r h' Hsub. unfold mbind, M_bind.
  destruct (m h) as [[a|e] h1] eqn:Hrun.
  - destruct (Hm h _ _ Hsub Hrun) as [Hsub1 HQ].
    apply (Hk a (HQ a eq_refl) h1 r h' Hsub1).
  - destruct (Hm h _ _ Hsub Hrun) as [Hsub1 _].
    intros [= <- <-]. split; [assumption|discriminate].
Qed.

Lemma keeps_weaken {A} (h0 : heap) (m : M A) (Q Q' : A -> Prop) :
  keeps h0 m Q -> (forall a, Q a -> Q' a) -> keeps h0 m Q'.
Proof.
  intros Hm HQ h r h' Hsub Hrun. destruct (Hm h r h' Hsub Hrun) as [H1 H2].
  split; [assumption|]. intros a Ha. apply HQ, H2, Ha.
Qed.

Lemma keeps_get (h0 : heap) (l : loc) : keeps h0 (get l) (fun _ => True).
Proof.
  intros h r h' Hsub. unfold get. destruct (h !! l); intros [= <- <-]; auto.
Qed.

(** A new object is new with respect to [h0] as well. *)
Lemma keeps_alloc (h0 : heap) (c : cell) :
  keeps h0 (alloc c) (fun l => h0 !! l = None).
Proof.
  intros h r h' Hsub [= <- <-].
  assert (Hfresh : h !! fresh (dom h) = None)
    by (apply not_elem_of_dom, is_fresh).
  split.
  - etrans; [exact Hsub|]. now apply insert_subseteq.
  - intros a [= <-]. destruct (h0 !! fresh (dom h)) as [c0|] eqn:H0; [|reflexivity].
    apply (lookup_weaken _ _ _ _ H0) in Hsub. congruence.
Qed.

Lemma keeps_dict (h0 : heap) (obj : loc) :
  keeps h0 (dict obj) (fun out => h0 !! out = None).
Proof.
  unfold dict. apply (keeps_bind _ _ _ (fun _ => True)); [apply keeps_get|].
  intros c _. apply keeps_alloc.
Qed.

(** Updating an object that [h0] does not have leaves [h0] alone. *)
Lemma keeps_delitem (h0 : heap) (out : loc) (k : string) :
  h0 !! out = None -> keeps h0 (delitem out k) (fun _ => True).
Proof.
  intros Hout h r h' Hsub. unfold delitem.
  destruct (h !! out) as [c|]; [|intros [= <- <-]; now auto].
  destruct (items_of c !! k); intros [= <- <-]; [|now auto].
  split; [|auto]. now apply insert_subseteq_r.
Qed.

Lemma keeps_setitem (h0 : heap) (out : loc) (k : string) (v : slot) :
  h0 !! out = None -> keeps h0 (setitem out k v) (fun _ => True).
Proof.
  intros Hout h r h' Hsub. unfold setitem.
  destruct (h !! out) as [c|]; intros [= <- <-]; [|now auto].
  split; [|auto]. now apply insert_subseteq_r.
Qed.

(** Reading an attribute changes nothing. *)
Lemma keeps_getattr_path (h0 : heap) (obj : loc) :
  keeps h0 (getattr_path obj) (fun _ => True).
Proof.
  intros h r h' Hsub. unfold getattr_path.
  destruct (h !! obj) as [c|]; [|intros [= <- <-]; now auto].
  destruct (items_of c !! "path") as [[[]|]|]; intros [= <- <-]; auto.
Qed.

(** One step of a sequence whose intermediate value needs no
    description. *)
Ltac keeps_seq := apply (keeps_bind _ _ _ (fun _ => True)).

Lemma keeps_for_each {A B} (h0 : heap) (f : A -> M B) (l : list A) :
  (forall x, keeps h0 (f x) (fun _ => True)) ->
  keeps h0 (for_each f l) (fun _ => True).
Proof.
  intros Hf. induction l as [|x l IH].
  - now apply keeps_ret.
  - change (for_each f (x :: l))
      with (v ← f x; vs ← for_each f l; mret (v :: vs)).
    keeps_seq; [apply Hf|]. intros v _.
    keeps_seq; [apply IH|]. intros vs _.
    now apply keeps_ret.
Qed.

Section Frame.

Variable getsize : string -> option N.

Lemma keeps_rep_body (h0 : heap) (self : loc -> bool -> M (option loc))
    (ref : loc) (expand : bool) :
  (forall item e, keeps h0 (self item e) (fun _ => True)) ->
  keeps h0 (_rep_body getsize self ref expand)
        (fun r => forall out, r = Some out -> h0 !! out = None).
Proof.
  intros Hself. unfold _rep_body.
  apply (keeps_bind _ _ _ (fun out => h0 !! out = None)); [apply keeps_dict|].
  intros out Hout.
  keeps_seq; [apply keeps_get|].
  intros [fields|fields tracks|fields|d] _.
  - keeps_seq; [now apply keeps_delitem|]. intros _ _.
    keeps_seq; [apply keeps_getattr_path|]. intros path _.
    keeps_seq; [destruct (getsize path); now apply keeps_setitem|]. intros _ _.
    apply keeps_ret. now intros ? [= <-].
  - keeps_seq; [now apply keeps_delitem|]. intros _ _.
    destruct expand.
    + keeps_seq; [apply keeps_for_each; intros item; apply Hself|]. intros reps _.
      keeps_seq; [now apply keeps_setitem|]. intros _ _.
      apply keeps_ret. now intros ? [= <-].
    + apply keeps_ret. now intros ? [= <-].
  - apply keeps_ret. discriminate.
  - apply keeps_ret. discriminate.
Qed.

Lemma keeps_rep (h0 : heap) (ref : loc) (expand : bool) :
  keeps h0 (_rep getsize ref expand)
        (fun r => forall out, r = Some out -> h0 !! out = None).
Proof.
  unfold _rep. apply keeps_rep_body. intros item e.
  apply (keeps_weaken _ _ (fun r => forall out, r = Some out -> h0 !! out = None));
    [|auto].
  apply keeps_rep_body. intros item' e'. apply keeps_raise.
Qed.

End Frame.

End StoreFacts.

(** C8. For every store, every record in it and every value of the
    flag, after the projection every object the store held before the
    call is exactly as it was, the projected record and its tracks among
    them; what the call returns is an object the store did not hold
    before; and wherever the store has changed, it is at an object that
    did not exist before.  All deletions and additions therefore fall on
    new objects, although item assignment and deletion would change a
    record just as well ([rep_aliasing_changes_source]). *)
Theorem rep_leaves_source_unchanged (getsize : string -> option N)
    (h : gmap Store.loc Store.cell) (obj : Store.loc) (expand : bool) :
  let run := Store._rep getsize obj expand h in
  (forall l c, h !! l = Some c -> run.2 !! l = Some c)
  /\ run.2 !! obj = h !! obj
  /\ (forall out, run.1 = Ok (Some out) -> h !! out = None)
  /\ (forall l, run.2 !! l <> h !! l -> h !! l = None).
Proof.
  intros run. subst run.
  destruct (Store._rep getsize obj expand h) as [r h'] eqn:Hrun.
  destruct (StoreFacts.keeps_rep getsize h obj expand h r h' (reflexivity h) Hrun)
    as [Hsub Hout].
  cbn [fst snd].
  split; [|split; [|split]].
  - intros l c Hl. exact (lookup_weaken _ _ _ _ Hl Hsub).
  - destruct (h !! obj) as [c|] eqn:Hobj.
    + exact (lookup_weaken _ _ _ _ Hobj Hsub).
    + revert Hrun. unfold Store._rep, Store._rep_body, Store.dict, Store.get.
      unfold mbind, Store.M_bind. rewrite Hobj. now intros [= <- <-].
  - intros out ->. now apply (Hout (Some out)).
  - intros l Hl. destruct (h !! l) as [c|] eqn:Hc; [|reflexivity].
    destruct Hl. exact (lookup_weaken _ _ _ _ Hc Hsub).
Qed.

(** The frame is a property of [_rep], not of the store: the variant
    that works on the record itself, without [dict(obj)], deletes the
    path from the source and returns the source. *)
Lemma rep_aliasing_changes_source (h : gmap Store.loc Store.cell)
    (obj : Store.loc) (fields : gmap string Store.slot) (v : Store.slot) :
  h !! obj = Some (Store.Item fields) ->
  fields !! "path" = Some v ->
  (Store._rep_aliasing obj h).1 = Ok (Some obj)
  /\ (Store._rep_aliasing obj h).2 !! obj = Some (Store.Item (delete "path" fields))
  /\ (Store._rep_aliasing obj h).2 !! obj <> h !! obj.
Proof.
  intros Hobj Hpath.
  unfold Store._rep_aliasing, Store.get, Store.delitem, mbind, Store.M_bind.
  rewrite Hobj. cbn [Store.items_of Store.with_items]. rewrite Hobj.
  cbn [Store.items_of Store.with_items]. rewrite Hpath.
  cbn [fst snd mret Store.M_ret]. rewrite lookup_insert_eq.
  split; [reflexivity|]. split; [reflexivity|].
  intros [= Heq]. apply (f_equal (fun m => m !! "path")) in Heq.
  rewrite lookup_delete_eq, Hpath in Heq. discriminate.
Qed.

(* ===================================================================== *)
(** ** The projector on the store computes the projection                 *)
(* ===================================================================== *)

Module StoreRefinement.
Import Store.

Lemma run_bind {A B} (m : M A) (k : A -> M B) (h h1 : heap) (a : A) :
  m h = (Ok a, h1) -> (m ≫= k) h = k a h1.
Proof. intros H. unfold mbind, M_bind. now rewrite H. Qed.

Lemma fresh_unused (h : heap) : h !! fresh (dom h) = None.
Proof. apply not_elem_of_dom, is_fresh. Qed.

Lemma run_dict (h : heap) (obj : loc) (c : cell) :
  h !! obj = Some c ->
  dict obj h = (Ok (fresh (dom h)), <[fresh (dom h) := Dict (items_of c)]> h).
Proof. intros H. unfold dict, mbind, M_bind, get. now rewrite H. Qed.

Lemma run_get (h : heap) (l : loc) (c : cell) :
  h !! l = Some c -> get l h = (Ok c, h).
Proof. intros H. unfold get. now rewrite H. Qed.

Lemma run_delitem (h : heap) (out : loc) (d : gmap string slot) (k : string) (v : slot) :
  h !! out = Some (Dict d) -> d !! k = Some v ->
  delitem out k h = (Ok tt, <[out := Dict (delete k d)]> h).
Proof. intros H Hk. unfold delitem. rewrite H. cbn [items_of]. now rewrite Hk. Qed.

Lemma run_setitem (h : heap) (out : loc) (d : gmap string slot) (k : string) (v : slot) :
  h !! out = Some (Dict d) ->
  setitem out k v h = (Ok tt, <[out := Dict (<[k := v]> d)]> h).
Proof. intros H. unfold setitem. now rewrite H. Qed.

Lemma run_getattr_path (h : heap) (obj : loc) (c : cell) (p : string) :
  h !! obj = Some c -> items_of c !! "path" = Some (Imm (VStr p)) ->
  getattr_path obj h = (Ok p, h).
Proof. intros H Hp. unfold getattr_path. now rewrite H, Hp. Qed.

Lemma holds_mono (h h' : heap) :
  h ⊆ h' -> forall l o, holds h l o -> holds h' l o.
Proof.
  intros Hsub. fix IH 3. intros l o H.
  destruct H as [l path fields Hl|l artpath fields refs tracks Hl Htracks|l fields Hl].
  - constructor. exact (lookup_weaken _ _ _ _ Hl Hsub).
  - apply holds_album with refs; [exact (lookup_weaken _ _ _ _ Hl Hsub)|].
    clear Hl. revert refs tracks Htracks. fix IHl 3. intros refs tracks Htracks.
    destruct Htracks as [|r t refs tracks Hrt Hrest]; constructor.
    + apply IH, Hrt.
    + apply IHl, Hrest.
  - constructor. exact (lookup_weaken _ _ _ _ Hl Hsub).
Qed.

Lemma holds_flat_mono (h h' : heap) (r : option loc) (v : value) :
  h ⊆ h' -> holds_flat h r v -> holds_flat h' r v.
Proof.
  intros Hsub. unfold holds_flat.
  destruct r as [l|], v; try tauto.
  intros Hl. exact (lookup_weaken _ _ _ _ Hl Hsub).
Qed.

Lemma classic_album (o : obj) (expand : bool) :
  (expand = true -> forall artpath fields tracks, o <> OAlbum artpath fields tracks)
  \/ (expand = true /\ exists artpath fields tracks, o = OAlbum artpath fields tracks).
Proof.
  destruct expand; [|left; discriminate].
  destruct o as [path fields|artpath fields tracks|fields].
  - left. discriminate.
  - right. eauto.
  - left. discriminate.
Qed.

Section Refinement.

Variable getsize : string -> option N.

(** Without expansion: the call returns, the store only grows, and the
    new object holds the projection. *)
Lemma rep_flat_refines (self : loc -> bool -> M (option loc))
    (h : heap) (ref : loc) (o : obj) (expand : bool) :
  holds h ref o ->
  (expand = true -> forall artpath fields tracks, o <> OAlbum artpath fields tracks) ->
  exists out h' v,
    _rep_body getsize self ref expand h = (Ok out, h')
    /\ pure_rep getsize o expand = Ok v
    /\ holds_flat h' out v
    /\ h ⊆ h'
    /\ (forall l, out = Some l -> h !! l = None).
Proof.
  intros Hholds Hflat.
  pose proof (fresh_unused h) as Hfresh.
  set (out := fresh (dom h)) in *.
  assert (Hgrow : forall c, h ⊆ <[out := c]> h) by (intros; now apply insert_subseteq).
  destruct Hholds as [ref path fields Href|ref artpath fields refs tracks Href _|ref fields Href].
  - assert (Hne : out <> ref) by congruence.
    eexists (Some out), _, _. unfold _rep_body.
    rewrite (run_bind _ _ _ _ _ (run_dict _ _ _ Href)). fold out.
    rewrite (run_bind _ _ _ _ (Item (Imm <$> <["path" := VStr path]> fields)))
      by (apply run_get; now rewrite lookup_insert_ne).
    rewrite (run_bind _ _ _ _ tt)
      by (eapply run_delitem; [apply lookup_insert_eq|];
          cbn [items_of]; rewrite lookup_fmap, lookup_insert_eq; reflexivity).
    rewrite insert_insert_eq.
    rewrite (run_bind _ _ _ _ path)
      by (eapply run_getattr_path;
          [rewrite lookup_insert_ne by assumption; exact Href|];
          cbn [items_of]; now rewrite lookup_fmap, lookup_insert_eq).
    rewrite (run_bind _ _ _
               (<[out := Dict (<["size" := Imm (VInt (probed_size getsize path))]>
                                 (delete "path"
                                    (Imm <$> <["path" := VStr path]> fields)))]> h) tt).
    2:{ unfold probed_size. cbn [items_of]. destruct (getsize path);
        (erewrite run_setitem by apply lookup_insert_eq);
        now rewrite insert_insert_eq. }
    split; [reflexivity|].
    split; [apply rep_item|].
    split.
    { cbn [holds_flat]. rewrite lookup_insert_eq. do 2 f_equal.
      now rewrite !fmap_insert, fmap_delete, delete_insert_eq. }
    split; [apply Hgrow|]. now intros l [= <-].
  - assert (Hne : out <> ref) by congruence.
    eexists (Some out), _, _. unfold _rep_body.
    rewrite (run_bind _ _ _ _ _ (run_dict _ _ _ Href)). fold out.
    rewrite (run_bind _ _ _ _
               (Album (Imm <$> <["artpath" := opt_str artpath]> fields) refs))
      by (apply run_get; now rewrite lookup_insert_ne).
    rewrite (run_bind _ _ _ _ tt)
      by (eapply run_delitem; [apply lookup_insert_eq|];
          cbn [items_of]; rewrite lookup_fmap, lookup_insert_eq; reflexivity).
    rewrite insert_insert_eq.
    destruct expand; [now destruct (Hflat eq_refl artpath fields tracks)|].
    split; [reflexivity|].
    split; [apply rep_album_flat|].
    split.
    { cbn [holds_flat items_of]. rewrite lookup_insert_eq. do 2 f_equal.
      now rewrite fmap_insert, fmap_delete, delete_insert_eq. }
    split; [apply Hgrow|]. now intros l [= <-].
  - assert (Hne : out <> ref) by congruence.
    eexists None, _, _. unfold _rep_body.
    rewrite (run_bind _ _ _ _ _ (run_dict _ _ _ Href)). fold out.
    rewrite (run_bind _ _ _ _ (Other (Imm <$> fields)))
      by (apply run_get; now rewrite lookup_insert_ne).
    split; [reflexivity|].
    split; [apply rep_other|].
    split; [exact I|].
    split; [apply Hgrow|]. discriminate.
Qed.

Lemma holds_flat_result (h : heap) (r : option loc) (v : value) :
  holds_flat h r v -> holds_result h r v.
Proof.
  unfold holds_flat, holds_result. destruct r as [l|], v; try tauto.
  intros Hl. eexists. split; [exact Hl|]. intros k.
  rewrite lookup_fmap. now destruct (d !! k).
Qed.

Lemma holds_flat_insert (h : heap) (out : loc) (c : cell)
    (reps : list (option loc)) (vs : list value) :
  Forall2 (holds_flat h) reps vs ->
  Forall (fun r => r <> Some out) reps ->
  Forall2 (holds_flat (<[out := c]> h)) reps vs.
Proof.
  induction 1 as [|r v reps vs Hrv _ IH]; intros Hne; constructor.
  - inversion Hne as [|? ? Hr _]; subst. unfold holds_flat in *.
    destruct r as [l|], v; try tauto.
    rewrite lookup_insert_ne by congruence. assumption.
  - apply IH. now inversion Hne.
Qed.

(** The comprehension over the tracks of an album. *)
Lemma tracks_refine (refs : list loc) (tracks : list obj) :
  forall h : heap,
  Forall2 (holds h) refs tracks ->
  exists reps h' vs,
    for_each (fun item => _rep_body getsize no_call item false) refs h = (Ok reps, h')
    /\ comprehension (fun t => pure_rep getsize t false) tracks = Ok vs
    /\ Forall2 (holds_flat h') reps vs
    /\ h ⊆ h'
    /\ Forall (fun r => forall l, r = Some l -> h !! l = None) reps.
Proof.
  revert tracks. induction refs as [|ref refs IH]; intros tracks h Hall.
  - inversion Hall; subst. exists [], h, [].
    split; [reflexivity|]. split; [reflexivity|]. split; [constructor|].
    split; [reflexivity|constructor].
  - inversion Hall as [|? t ? tracks' Hhead Hrest]; subst.
    destruct (rep_flat_refines no_call h ref t false Hhead) as
      (out & h1 & v & Hrun & Hpure & Hflat & Hsub & Hnew); [discriminate|].
    destruct (IH tracks' h1) as (reps & h2 & vs & Hrun' & Hpure' & Hflat' & Hsub' & Hnew').
    { eapply Forall2_impl; [exact Hrest|]. intros; now apply (holds_mono h h1). }
    exists (out :: reps), h2, (v :: vs).
    split.
    { change (for_each (fun item => _rep_body getsize no_call item false) (ref :: refs))
        with (v ← _rep_body getsize no_call ref false;
              vs ← for_each (fun item => _rep_body getsize no_call item false) refs;
              mret (v :: vs)).
      rewrite (run_bind _ _ _ _ _ Hrun), (run_bind _ _ _ _ _ Hrun'). reflexivity. }
    split; [rewrite comprehension_cons, Hpure, Hpure'; reflexivity|].
    split; [constructor; [now apply (holds_flat_mono h1 h2)|assumption]|].
    split; [etrans; [exact Hsub|exact Hsub']|].
    constructor; [assumption|].
    eapply Forall_impl; [exact Hnew'|]. intros r Hr l Hl.
    destruct (h !! l) as [c|] eqn:Hc; [|reflexivity].
    apply (lookup_weaken _ _ _ _ Hc) in Hsub. specialize (Hr l Hl). congruence.
Qed.

(** X10. [Store._rep] refines [_rep]: on a store that holds the record
    [o] at [ref] it returns, and the store then holds at the returned
    reference the value [_rep] computes for [o]. *)
Lemma rep_refines (h : heap) (ref : loc) (o : obj) (expand : bool) :
  holds h ref o ->
  exists out h' v,
    Store._rep getsize ref expand h = (Ok out, h')
    /\ pure_rep getsize o expand = Ok v
    /\ holds_result h' out v.
Proof.
  intros Hholds. unfold Store._rep.
  destruct (classic_album o expand) as [Hflat|(-> & artpath & fields & tracks & ->)].
  { destruct (rep_flat_refines (_rep_body getsize no_call) h ref o expand Hholds Hflat)
      as (out & h' & v & Hrun & Hpure & Hres & _).
    exists out, h', v. split; [assumption|]. split; [assumption|].
    now apply holds_flat_result. }
  inversion Hholds as [|? ? ? refs ? Href Htracks|]; subst.
  pose proof (fresh_unused h) as Hfresh.
  set (out := fresh (dom h)) in *.
  assert (Hne : out <> ref) by congruence.
  set (d2 := delete "artpath" (Imm <$> <["artpath" := opt_str artpath]> fields)).
  set (h2 := <[out := Dict d2]> h).
  assert (Hsub2 : h ⊆ h2) by now apply insert_subseteq.
  destruct (tracks_refine refs tracks h2) as
    (reps & h3 & vs & Hrun & Hpure & Hflat & Hsub3 & Hnew).
  { eapply Forall2_impl; [exact Htracks|]. intros; now apply (holds_mono h h2). }
  assert (Hout3 : h3 !! out = Some (Dict d2)).
  { apply (lookup_weaken h2); [apply lookup_insert_eq|assumption]. }
  exists (Some out), (<[out := Dict (<["items" := Refs reps]> d2)]> h3),
         (VDict (<["items" := VList vs]> (delete "artpath" fields))).
  split.
  { unfold _rep_body at 1.
    rewrite (run_bind _ _ _ _ _ (run_dict _ _ _ Href)). fold out.
    rewrite (run_bind _ _ _ _
               (Album (Imm <$> <["artpath" := opt_str artpath]> fields) refs))
      by (apply run_get; now rewrite lookup_insert_ne).
    rewrite (run_bind _ _ _ _ tt)
      by (eapply run_delitem; [apply lookup_insert_eq|];
          cbn [items_of]; rewrite lookup_fmap, lookup_insert_eq; reflexivity).
    rewrite insert_insert_eq. cbn [items_of]. fold d2. fold h2.
    rewrite (run_bind _ _ _ _ _ Hrun).
    rewrite (run_bind _ _ _ _ _ (run_setitem _ _ _ "items" (Refs reps) Hout3)).
    reflexivity. }
  split; [now apply rep_album_expand|].
  cbn [holds_result]. eexists. split; [apply lookup_insert_eq|].
  intros k. destruct (decide (k = "items")) as [->|Hk].
  - rewrite !lookup_insert_eq.
    apply holds_flat_insert; [assumption|].
    eapply Forall_impl; [exact Hnew|]. intros r Hr ->.
    specialize (Hr out eq_refl). unfold h2 in Hr.
    rewrite lookup_insert_eq in Hr. discriminate.
  - rewrite !lookup_insert_ne by congruence. unfold d2.
    destruct (decide (k = "artpath")) as [->|Hk'].
    + now rewrite !lookup_delete_eq.
    + rewrite !lookup_delete_ne by congruence.
      rewrite lookup_fmap, lookup_insert_ne by congruence.
      now destruct (fields !! k).
Qed.

Lemma for_each_ext {A B} (f g : A -> M B) (l : list A) :
  (forall x h, f x h = g x h) -> forall h, for_each f l h = for_each g l h.
Proof.
  intros Hfg. induction l as [|x l IH]; intros h; [reflexivity|].
  change (for_each f (x :: l) h) with ((v ← f x; vs ← for_each f l; mret (v :: vs)) h).
  change (for_each g (x :: l) h) with ((v ← g x; vs ← for_each g l; mret (v :: vs)) h).
  unfold mbind, M_bind. rewrite Hfg. destruct (g x h) as [[v|e] h1]; [|reflexivity].
  now rewrite IH.
Qed.

Lemma rep_body_ext (self1 self2 : loc -> bool -> M (option loc))
    (ref : loc) (expand : bool) (h : heap) :
  (forall item h, self1 item false h = self2 item false h) ->
  _rep_body getsize self1 ref expand h = _rep_body getsize self2 ref expand h.
Proof.
  intros Hself. unfold _rep_body, mbind, M_bind.
  destruct (dict ref h) as [[out|e] h1]; [|reflexivity].
  destruct (get ref h1) as [[c|e] h2]; [|reflexivity].
  destruct c as [fields|fields tracks|fields|d]; try reflexivity.
  destruct (delitem out "artpath" h2) as [[[]|e] h3]; [|reflexivity].
  destruct expand; [|reflexivity].
  now rewrite (for_each_ext _ _ tracks Hself).
Qed.

(** The recursive equation of the source: [_rep] is its body, with
    itself for the inner call. *)
Lemma rep_unfold (ref : loc) (expand : bool) (h : heap) :
  Store._rep getsize ref expand h
  = _rep_body getsize (Store._rep getsize) ref expand h.
Proof.
  unfold Store._rep. apply rep_body_ext. intros item h1. reflexivity.
Qed.

End Refinement.

(** The example album in the example store, expanded. *)
Lemma rep_refines_witness :
  holds example 3%positive Example.album
  /\ exists out h' v,
       Store._rep Example.getsize 3%positive true example = (Ok out, h')
       /\ pure_rep Example.getsize Example.album true = Ok v
       /\ holds_result h' out v.
Proof.
  assert (H : holds example 3%positive Example.album).
  { apply holds_album with [1%positive; 2%positive]; [reflexivity|].
    repeat constructor. }
  split; [exact H|].
  exact (rep_refines Example.getsize example 3%positive Example.album true H).
Defined.

End StoreRefinement.

(* ===================================================================== *)
(** ** Worked examples                                                    *)
(* ===================================================================== *)

(** [GET /item/1,2], [GET /item/1] and [GET /item/99] on the example
    backend. *)
Example get_item_two :
  get_item IntLiteral.int Example.getsize Example.lib "1,2"
  = Ok (Streamed
          (Yield (opening "items")
             (Yield (Json.dumps (VDict (<["size" := VInt 1000]> {[ "id" := VInt 1 ]})))
                (Yield ","
                   (Yield (Json.dumps (VDict (<["size" := VInt 2000]> {[ "id" := VInt 2 ]})))
                      (Yield "]}" GReturn)))))
          "application/json").
Proof. vm_compute. reflexivity. Qed.

Example get_item_one :
  get_item IntLiteral.int Example.getsize Example.lib "1"
  = Ok (Jsonify (VDict (<["size" := VInt 1000]> {[ "id" := VInt 1 ]}))).
Proof. vm_compute. reflexivity. Qed.

Example get_item_absent :
  get_item IntLiteral.int Example.getsize Example.lib "99"
  = Raise (HTTPException 404).
Proof. vm_compute. reflexivity. Qed.

(** A repeated id is looked up twice, and the two results are streamed. *)
Example get_item_repeated :
  get_item IntLiteral.int Example.getsize Example.lib "1,1"
  = Ok (Streamed
          (json_generator Example.getsize
             [Example.track 1 "A.mp3"; Example.track 1 "A.mp3"] "items")
          "application/json").
Proof. vm_compute. reflexivity. Qed.

(** Projecting the example album in the example store: the result is the
    new object 4, the track projections are the new objects 5 and 6, and
    the album and its tracks are where they were. *)
Example store_rep_example :
  let run := Store._rep Example.getsize 3%positive true Store.example in
  run.1 = Ok (Some 4%positive)
  /\ run.2 !! 4%positive
     = Some (Store.Dict (<["items" := Store.Refs [Some 5%positive; Some 6%positive]]>
                           {[ "id" := Store.Imm (VInt 7) ]}))
  /\ run.2 !! 5%positive
     = Some (Store.Dict (<["size" := Store.Imm (VInt 1000)]>
                           {[ "id" := Store.Imm (VInt 1) ]}))
  /\ run.2 !! 3%positive = Store.example !! 3%positive
  /\ run.2 !! 1%positive = Store.example !! 1%positive.
Proof. vm_compute. repeat split; reflexivity. Qed.

(** Item deletion reaches whatever object it is applied to, a record as
    well as a dict: applied to the first track of the example store it
    removes the track's path. *)
Example delitem_changes_its_operand :
  (Store.delitem 1%positive "path" Store.example).2 !! 1%positive
  = Some (Store.Item {[ "id" := Store.Imm (VInt 1) ]})
  /\ (Store.delitem 1%positive "path" Store.example).2 !! 1%positive
     <> Store.example !! 1%positive.
Proof. vm_compute. split; [reflexivity|discriminate]. Qed.

(* ===================================================================== *)
(** ** Further properties of the id-list parser                           *)
(* ===================================================================== *)

Lemma split_length (sep : ascii) (s : string) :
  length (split sep s) = S (count_char sep s).
Proof.
  induction s as [|c s IH]; [reflexivity|].
  cbn [split count_char]. destruct (Ascii.eqb c sep).
  - cbn [length]. now rewrite IH.
  - pose proof (split_not_nil sep s) as Hnil.
    destruct (split sep s) as [|t ts]; [contradiction|]. exact IH.
Qed.

Lemma omap_Forall2 {A B} (f : A -> option B) (l : list A) (vs : list B) :
  Forall2 (fun x v => f x = Some v) l vs -> omap f l = vs.
Proof.
  induction 1 as [|x v l vs Hx _ IH]; [reflexivity|].
  cbn [omap list_omap]. fold (omap f l). now rewrite Hx, IH.
Qed.

Lemma omap_length_le {A B} (f : A -> option B) (l : list A) :
  (length (omap f l) <= length l)%nat.
Proof.
  induction l as [|x l IH]; [reflexivity|].
  cbn [omap list_omap]. fold (omap f l).
  destruct (f x); cbn [length]; lia.
Qed.

Lemma comma_cons (s : string) : "," +:+ s = String comma s.
Proof. reflexivity. Qed.

(** X1. Printing then parsing: if the tokens contain no comma and [int]
    reads them as the identifiers [ids], then parsing the tokens joined
    by commas returns exactly [ids]. *)
Theorem extract_ids_of_joined (int : string -> option Z)
    (t : string) (ts : list string) (ids : list Z)
    (comma_free : Forall (fun t => contains comma t = false) (t :: ts))
    (parsed : Forall2 (fun t n => int t = Some n) (t :: ts) ids) :
  _extract_ids int (String.concat "," (t :: ts)) = ids.
Proof.
  rewrite extract_ids_omap.
  change "," with (String comma EmptyString).
  rewrite split_concat by assumption.
  now apply omap_Forall2.
Qed.

Lemma extract_ids_of_joined_witness :
  _extract_ids IntLiteral.int (String.concat "," ["12"; "7"; "12"]) = [12; 7; 12].
Proof.
  apply (extract_ids_of_joined IntLiteral.int "12" ["7"; "12"] [12; 7; 12]).
  - repeat constructor.
  - repeat constructor.
Defined.

(** X2. A token that [int] rejects leaves no trace: removing it, with
    its comma, from the middle, the front or the end of the input does
    not change the parse. *)
Theorem extract_ids_skips_malformed (int : string -> option Z)
    (bad s1 s2 : string)
    (comma_free : contains comma bad = false)
    (rejected : int bad = None) :
  _extract_ids int (s1 +:+ "," +:+ bad +:+ "," +:+ s2)
    = _extract_ids int (s1 +:+ "," +:+ s2)
  /\ _extract_ids int (bad +:+ "," +:+ s2) = _extract_ids int s2
  /\ _extract_ids int (s1 +:+ "," +:+ bad) = _extract_ids int s1.
Proof.
  assert (Hbad : _extract_ids int bad = []).
  { rewrite extract_ids_omap, (split_token _ _ comma_free).
    cbn [omap list_omap]. now rewrite rejected. }
  rewrite !comma_cons, !extract_ids_app, Hbad.
  split; [reflexivity|]. split; [reflexivity|apply app_nil_r].
Qed.

Lemma extract_ids_skips_malformed_witness :
  _extract_ids IntLiteral.int ("3" +:+ "," +:+ "x7" +:+ "," +:+ "5")
  = _extract_ids IntLiteral.int ("3" +:+ "," +:+ "5").
Proof.
  apply (extract_ids_skips_malformed IntLiteral.int "x7" "3" "5");
    reflexivity.
Defined.

(** X3. The parser returns at most one identifier per token, so never
    more than one plus the number of commas in its input. *)
Theorem extract_ids_length_bound (int : string -> option Z) (s : string) :
  (length (_extract_ids int s) <= S (count_char comma s))%nat.
Proof.
  rewrite extract_ids_omap, <- split_length. apply omap_length_le.
Qed.

(* ===================================================================== *)
(** ** Further properties of the responders                               *)
(* ===================================================================== *)

Lemma lookups_returned {failure} (retriever : Z -> Backend.lookup failure)
    (ids : list Z) (os : list (option obj)) :
  Backend.lookups retriever ids = inr os
  <-> Forall2 (fun i o => retriever i = Backend.Returned o) ids os.
Proof.
  revert os. induction ids as [|i ids IH]; intros os; cbn [Backend.lookups].
  - split.
    + intros [= <-]. constructor.
    + intros H. now inversion H.
  - destruct (retriever i) as [o|b] eqn:Hi.
    + destruct (Backend.lookups retriever ids) as [b|os'] eqn:Hrest.
      * split; [discriminate|]. intros H.
        inversion H as [|? ? ? os'' _ Hrest']; subst.
        apply IH in Hrest'. discriminate.
      * split.
        -- intros [= <-]. constructor; [assumption|]. now apply IH.
        -- intros H. inversion H as [|? o' ? os'' Ho Hrest']; subst.
           apply IH in Hrest'. congruence.
    + split; [discriminate|]. intros H. inversion H; congruence.
Qed.

Lemma lookups_raised {failure} (retriever : Z -> Backend.lookup failure)
    (ids : list Z) (b : failure) :
  Backend.lookups retriever ids = inl b ->
  exists pre i post,
    ids = (pre ++ i :: post)%list
    /\ retriever i = Backend.Raised b
    /\ Forall (fun j => exists o, retriever j = Backend.Returned o) pre.
Proof.
  induction ids as [|i ids IH]; cbn [Backend.lookups]; [discriminate|].
  destruct (retriever i) as [o|b'] eqn:Hi.
  - destruct (Backend.lookups retriever ids) as [b'|os] eqn:Hrest; [|discriminate].
    intros [= ->]. destruct (IH eq_refl) as (pre & j & post & -> & Hj & Hpre).
    exists (i :: pre), j, post. split; [reflexivity|]. split; [assumption|].
    constructor; eauto.
  - intros [= ->]. exists [], i, ids. split; [reflexivity|].
    split; [assumption|constructor].
Qed.

Lemma truthy_nil_iff (os : list (option obj)) :
  truthy os = [] <-> Forall (fun o => o = None) os.
Proof.
  induction os as [|[e|] os IH]; cbn [truthy].
  - split; [constructor|reflexivity].
  - split; [discriminate|]. intros H. inversion H; discriminate.
  - rewrite IH. split; [now constructor|]. intros H. now inversion H.
Qed.

(** X4. Whatever escapes the resource responder is the 404 abort or an
    exception raised by a lookup.  The abort is raised exactly when every
    lookup returned and none found a record; an exception of the backend
    is that of the first failing id in request order; and the responder
    answers exactly when every lookup returned and one found a record.
    No [KeyError] or [IndexError] of the responder's own code escapes.
    On lookups that always return it is the responder of the shape
    rule. *)
Theorem resource_raises_only_not_found {failure : Type}
    (int : string -> option Z) (getsize : string -> option N) (name : string)
    (retriever : Z -> Backend.lookup failure) (entity_ids : string) :
  match Backend.resource int getsize name retriever entity_ids with
  | Backend.Answered _ =>
      exists os,
        Forall2 (fun i o => retriever i = Backend.Returned o)
                (_extract_ids int entity_ids) os
        /\ truthy os <> []
  | Backend.Own e =>
      e = HTTPException 404
      /\ Forall (fun i => retriever i = Backend.Returned None)
                (_extract_ids int entity_ids)
  | Backend.FromBackend b =>
      exists pre i post,
        _extract_ids int entity_ids = (pre ++ i :: post)%list
        /\ retriever i = Backend.Raised b
        /\ Forall (fun j => exists o, retriever j = Backend.Returned o) pre
  end
  /\ (forall total : Z -> option obj,
        Backend.resource (failure := failure) int getsize name
          (fun i => Backend.Returned (total i)) entity_ids
        = Backend.of_result (resource int getsize name total entity_ids)).
Proof.
  split.
  - unfold Backend.resource.
    destruct (Backend.lookups retriever (_extract_ids int entity_ids))
      as [b|os] eqn:Hlook.
    + now apply lookups_raised.
    + apply lookups_returned in Hlook.
      destruct (truthy os) as [|x [|y rest]] eqn:Hos.
      * cbn. split; [reflexivity|].
        apply truthy_nil_iff in Hos. clear -Hlook Hos.
        induction Hlook as [|i o ids os Hi _ IH]; constructor.
        -- inversion Hos; subst. assumption.
        -- apply IH. now inversion Hos.
      * cbn [length Nat.eqb first_of mbind result_bind].
        destruct (rep_flat_total getsize x) as [v ->].
        cbn. exists os. rewrite Hos. split; [assumption|discriminate].
      * cbn. exists os. rewrite Hos. split; [assumption|discriminate].
  - intros total. unfold Backend.resource, resource.
    assert (Hlook : Backend.lookups (failure := failure)
                      (fun i => Backend.Returned (total i))
                      (_extract_ids int entity_ids)
                    = inr (map total (_extract_ids int entity_ids))).
    { apply lookups_returned.
      induction (_extract_ids int entity_ids); constructor; auto. }
    now rewrite Hlook.
Qed.

(** X5. The shape follows the number of lookups that succeed, not the
    number of distinct ids: a token naming a known id is answered with a
    bare object, the same token given twice with the streamed array
    holding the record twice. *)
Theorem resource_repeated_id (int : string -> option Z)
    (getsize : string -> option N) (name : string)
    (retriever : Z -> option obj) (t : string) (i : Z) (e : obj)
    (comma_free : contains comma t = false)
    (parsed : int t = Some i)
    (found : retriever i = Some e) :
  (exists v, _rep getsize e false = Ok v
             /\ resource int getsize name retriever t = Ok (Jsonify v))
  /\ resource int getsize name retriever (t +:+ "," +:+ t)
     = Ok (Streamed (json_generator getsize [e; e] name) application_json).
Proof.
  assert (Hone : _extract_ids int t = [i]).
  { rewrite extract_ids_omap, (split_token _ _ comma_free).
    cbn [omap list_omap]. now rewrite parsed. }
  split.
  - pose proof (resource_shape int getsize name retriever t) as Hshape.
    rewrite Hone in Hshape. cbn [omap list_omap] in Hshape.
    rewrite found in Hshape. cbn [response_shape] in Hshape.
    destruct Hshape as (v & Hv & Hr & _). eauto.
  - pose proof (resource_shape int getsize name retriever (t +:+ "," +:+ t))
      as Hshape.
    rewrite comma_cons, extract_ids_app, Hone in Hshape.
    cbn [app omap list_omap] in Hshape. rewrite found in Hshape.
    exact Hshape.
Qed.

Lemma resource_repeated_id_witness :
  (exists v, get_item IntLiteral.int Example.getsize Example.lib "1" = Ok (Jsonify v))
  /\ get_item IntLiteral.int Example.getsize Example.lib ("1" +:+ "," +:+ "1")
     = Ok (Streamed
             (json_generator Example.getsize
                [Example.track 1 "A.mp3"; Example.track 1 "A.mp3"] "items")
             application_json).
Proof.
  destruct (resource_repeated_id IntLiteral.int Example.getsize "items"
              (lib_get_item Example.lib) "1" 1 (Example.track 1 "A.mp3")
              eq_refl eq_refl eq_refl) as [(v & _ & Hv) Htwo].
  split; [exists v; exact Hv|exact Htwo].
Defined.

Lemma rep_forget_tracks (getsize : string -> option N) (o : obj) :
  _rep getsize (forget_tracks o) false = _rep getsize o false.
Proof.
  destruct o as [path fields|artpath fields tracks|fields]; reflexivity.
Qed.

Lemma generator_loop_forget_tracks (getsize : string -> option N)
    (items : list obj) (first : bool) :
  json_generator_loop getsize first (map forget_tracks items)
  = json_generator_loop getsize first items.
Proof.
  revert first. induction items as [|x items IH]; intros first; [reflexivity|].
  cbn [map json_generator_loop]. now rewrite rep_forget_tracks, IH.
Qed.

Lemma omap_fmap_retriever {A} (f : obj -> obj) (retriever : A -> option obj)
    (ids : list A) :
  omap (fun i => f <$> retriever i) ids = map f (omap retriever ids).
Proof.
  induction ids as [|i ids IH]; [reflexivity|].
  cbn [omap list_omap]. fold (omap retriever ids).
  fold (omap (fun i => f <$> retriever i) ids).
  destruct (retriever i); cbn; now rewrite IH.
Qed.

(** X6. No responder expands an album: what the encoder yields, and
    what the resource, query and collection responders return, is the
    same when every record involved has the result of its [items()]
    emptied. *)
Theorem responders_never_expand (int : string -> option Z)
    (getsize : string -> option N) (name : string) :
  (forall items root,
      json_generator getsize (map forget_tracks items) root
      = json_generator getsize items root)
  /\ (forall retriever entity_ids,
      resource int getsize name (fun i => forget_tracks <$> retriever i) entity_ids
      = resource int getsize name retriever entity_ids)
  /\ (forall query_func query,
      resource_query getsize name
        (fun parts => map forget_tracks (query_func parts)) query
      = resource_query getsize name query_func query)
  /\ (forall list_all lib,
      resource_list getsize name list_all lib
      = Streamed (json_generator getsize
                    (map forget_tracks (lib_items lib None)) name)
                 application_json).
Proof.
  assert (Hgen : forall items root,
             json_generator getsize (map forget_tracks items) root
             = json_generator getsize items root).
  { intros items root. unfold json_generator.
    now rewrite generator_loop_forget_tracks. }
  split; [exact Hgen|]. split; [|split].
  - intros retriever entity_ids. unfold resource.
    rewrite !truthy_omap, omap_fmap_retriever, length_map.
    destruct (omap retriever (_extract_ids int entity_ids)) as [|x [|y rest]].
    + reflexivity.
    + cbn [map length Nat.eqb first_of mbind result_bind].
      now rewrite rep_forget_tracks.
    + cbn [length Nat.eqb negb]. now rewrite Hgen.
  - intros query_func query. unfold resource_query. now rewrite Hgen.
  - intros list_all lib. unfold resource_list. now rewrite Hgen.
Qed.

Lemma comprehension_forget_tracks (getsize : string -> option N)
    (tracks : list obj) :
  comprehension (fun item => _rep getsize item false) (map forget_tracks tracks)
  = comprehension (fun item => _rep getsize item false) tracks.
Proof.
  induction tracks as [|t tracks IH]; [reflexivity|].
  cbn [map]. now rewrite !comprehension_cons, rep_forget_tracks, IH.
Qed.

(** X7. Expansion reaches one level only: the expanded projection of an
    album is the same when each of its tracks has its own [items()]
    emptied, so nothing below the album's tracks is ever read. *)
Theorem rep_expansion_one_level (getsize : string -> option N)
    (artpath : option string) (fields : gmap string value) (tracks : list obj) :
  _rep getsize (OAlbum artpath fields (map forget_tracks tracks)) true
  = _rep getsize (OAlbum artpath fields tracks) true.
Proof.
  destruct (rep_tracks_total getsize tracks) as [reps Hreps].
  rewrite (rep_album_expand getsize artpath fields tracks reps Hreps).
  apply rep_album_expand. now rewrite comprehension_forget_tracks.
Qed.

(* ===================================================================== *)
(** ** Further properties of the streaming encoder                        *)
(* ===================================================================== *)

Lemma generator_loop_yields_something (getsize : string -> option N)
    (first : bool) (items : list obj) :
  yielded (json_generator_loop getsize first items) <> [].
Proof.
  destruct items as [|x items]; [discriminate|].
  cbn [json_generator_loop].
  destruct (rep_flat_total getsize x) as [v ->].
  destruct first; discriminate.
Qed.

Lemma removelast_cons {A} (x : A) (l : list A) :
  l <> [] -> removelast (x :: l) = x :: removelast l.
Proof. destruct l; [contradiction|reflexivity]. Qed.

Lemma generator_loop_prefix (getsize : string -> option N)
    (xs ys : list obj) (first : bool) :
  exists rest,
    yielded (json_generator_loop getsize first (xs ++ ys))
    = (removelast (yielded (json_generator_loop getsize first xs)) ++ rest)%list.
Proof.
  revert first. induction xs as [|x xs IH]; intros first.
  - eexists. reflexivity.
  - destruct (IH false) as [rest Hrest].
    pose proof (generator_loop_yields_something getsize false xs) as Hne.
    cbn [app json_generator_loop].
    destruct (rep_flat_total getsize x) as [v ->].
    exists rest. destruct first; cbn [yielded]; rewrite Hrest.
    + now rewrite removelast_cons.
    + rewrite !removelast_cons by (try discriminate; assumption). reflexivity.
Qed.

(** X8. The encoder is a single-pass producer: everything it yields for
    a sequence of entities, short of the closing fragment, is again the
    beginning of what it yields when more entities follow.  A fragment
    once sent never depends on a later entity. *)
Theorem json_generator_prefix (getsize : string -> option N)
    (xs ys : list obj) (root : string) :
  removelast (yielded (json_generator getsize xs root))
    `prefix_of` yielded (json_generator getsize (xs ++ ys) root).
Proof.
  unfold json_generator. cbn [yielded].
  destruct (generator_loop_prefix getsize xs ys true) as [rest Hrest].
  exists rest. rewrite Hrest, removelast_cons; [reflexivity|].
  apply generator_loop_yields_something.
Qed.

(** X9. The query function is always handed one segment more than the
    query has slashes, hence never an empty list; a slash at the end of
    the query adds a final empty segment, which is passed on like any
    other. *)
Theorem resource_query_segments (getsize : string -> option N)
    (name : string) (query_func : list string -> list obj) (query : string) :
  length (split slash query) = S (count_char slash query)
  /\ resource_query getsize name query_func (query +:+ "/")
     = Streamed
         (json_generator getsize (query_func (split slash query ++ [""])%list)
            "results")
         application_json.
Proof.
  split; [apply split_length|].
  unfold resource_query.
  change (query +:+ "/") with (query +:+ String slash EmptyString).
  now rewrite split_app.
Qed.

(* ===================================================================== *)
(** ** The plugin command and request set-up                              *)
(* ===================================================================== *)


(** X12. Set-up composes with the command: unless the command fails on
    its port argument, which happens before the library is installed, it
    leaves [app.config] such that [before_request] finds the library it
    was given, whatever [app.config] held before.  That is so whenever
    the command returns, and also when a typed read or [app.run]
    raises. *)
Theorem before_request_after_func (int : string -> option Z)
    (app_run : Serving.run_call -> Serving.outcome unit)
    (config : Serving.settings) (app : gmap string library)
    (lib : library) (debug : bool) (args : list string) :
  ((exists a b rest,
       args = a :: b :: rest /\ int b = None
       /\ (Serving.func int app_run config app lib debug args).1
          = Serving.Failed Serving.ValueError
       /\ Serving.app_config (Serving.func int app_run config app lib debug args).2
          = app)
   \/ before_request
        (Serving.app_config (Serving.func int app_run config app lib debug args).2)
      = Ok lib)
  /\ (forall call,
        (Serving.func int app_run config app lib debug args).1 = Serving.Done call ->
        before_request
          (Serving.app_config (Serving.func int app_run config app lib debug args).2)
        = Ok lib).
Proof.
  assert (Hinstalled : forall (o : Serving.outcome Serving.run_call) c,
             before_request
               (Serving.app_config
                  (o, {| Serving.plugin_config := c;
                         Serving.app_config := <["lib" := lib]> app |}).2)
             = Ok lib).
  { intros o c. unfold before_request. cbn. now rewrite lookup_insert_eq. }
  destruct args as [|a [|b rest]];
    unfold Serving.func, Serving.take_host, Serving.take_port, Serving.py_int;
    cbn [mbind Serving.outcome_bind].
  - split; [right; apply Hinstalled|intros; apply Hinstalled].
  - split; [right; apply Hinstalled|intros; apply Hinstalled].
  - destruct (int b) as [n|] eqn:Hb; cbn [mbind Serving.outcome_bind].
    + split; [right; apply Hinstalled|intros; apply Hinstalled].
    + split; [|discriminate]. left. exists a, b, rest. repeat split. exact Hb.
Qed.

(* ===================================================================== *)
(** ** The file routes                                                    *)
(* ===================================================================== *)

Lemma last_in_nonempty {A} (l : list A) (d : A) : l <> [] -> In (List.last l d) l.
Proof.
  induction l as [|x l IH]; [contradiction|]. intros _.
  destruct l as [|y l]; [now left|].
  right. apply IH. discriminate.
Qed.

Lemma basename_no_slash (p : string) : contains slash (basename p) = false.
Proof.
  unfold basename.
  pose proof (split_no_sep slash p) as Hall.
  rewrite List.Forall_forall in Hall. apply Hall.
  apply last_in_nonempty, split_not_nil.
Qed.

Lemma concat_ends_with_last (sep : string) (l : list string) :
  l <> [] -> exists dir, String.concat sep l = dir +:+ List.last l EmptyString.
Proof.
  induction l as [|x l IH]; [contradiction|]. intros _.
  destruct l as [|y l].
  - exists EmptyString. reflexivity.
  - destruct IH as [dir Hdir]; [discriminate|].
    exists (x +:+ sep +:+ dir).
    change (String.concat sep (x :: y :: l))
      with (x +:+ sep +:+ String.concat sep (y :: l)).
    change (List.last (x :: y :: l) EmptyString)
      with (List.last (y :: l) EmptyString).
    now rewrite Hdir, !append_assoc.
Qed.

Lemma basename_suffix (p : string) : exists dir, p = dir +:+ basename p.
Proof.
  destruct (concat_ends_with_last (String slash EmptyString) (split slash p)
              (split_not_nil slash p)) as [dir Hdir].
  exists dir. unfold basename. now rewrite <- Hdir, split_join.
Qed.

(** X13. For an id the library does not know, the file and artwork
    routes fail with [AttributeError] before any file is touched,
    whatever [send_file] and the size probe would do; the resource
    routes answer the same id with the 404 abort. *)
Theorem file_routes_unknown_id (int : string -> option Z)
    (send_file : option string -> bool -> option string
                 -> Serving.outcome Serving.file_response)
    (getsize getsize' : string -> option N)
    (lib : library) (id : Z) (t : string)
    (no_item : lib_get_item lib id = None)
    (no_album : lib_get_album lib id = None)
    (comma_free : contains comma t = false)
    (parsed : int t = Some id) :
  Serving.item_file send_file getsize lib id = Serving.Failed Serving.AttributeError
  /\ Serving.album_art send_file lib id = Serving.Failed Serving.AttributeError
  /\ get_item int getsize' lib t = Raise (HTTPException 404)
  /\ get_album int getsize' lib t = Raise (HTTPException 404).
Proof.
  assert (Hone : _extract_ids int t = [id]).
  { rewrite extract_ids_omap, (split_token _ _ comma_free).
    cbn [omap list_omap]. now rewrite parsed. }
  split; [|split; [|split]].
  - unfold Serving.item_file. now rewrite no_item.
  - unfold Serving.album_art. now rewrite no_album.
  - unfold get_item, resource. rewrite Hone. cbn [map]. now rewrite no_item.
  - unfold get_album, resource. rewrite Hone. cbn [map]. now rewrite no_album.
Qed.

Lemma file_routes_unknown_id_witness :
  Serving.item_file (fun _ _ _ => Serving.Failed Serving.SendFileError)
    Example.getsize Example.lib 99
  = Serving.Failed Serving.AttributeError
  /\ get_item IntLiteral.int Example.getsize Example.lib "99"
     = Raise (HTTPException 404).
Proof.
  destruct (file_routes_unknown_id IntLiteral.int
              (fun _ _ _ => Serving.Failed Serving.SendFileError)
              Example.getsize Example.getsize Example.lib 99 "99"
              eq_refl eq_refl eq_refl eq_refl) as (H1 & _ & H3 & _).
  split; assumption.
Defined.

(** X14. When the file route returns a response, the id named an Item,
    [send_file] was given the item's path as an attachment under the
    path's last component, a name without a slash with which the path
    ends, and the response carries as [Content-Length] the size of the
    file at that path. *)
Theorem item_file_response
    (send_file : option string -> bool -> option string
                 -> Serving.outcome Serving.file_response)
    (getsize : string -> option N) (lib : library) (id : Z)
    (r : Serving.file_response)
    (returned : Serving.item_file send_file getsize lib id = Serving.Done r) :
  exists path fields r0 n,
    lib_get_item lib id = Some (OItem path fields)
    /\ send_file (Some path) true (Some (basename path)) = Serving.Done r0
    /\ getsize path = Some n
    /\ r = Serving.set_header "Content-Length" (VInt (Z.of_N n)) r0
    /\ Serving.headers r !! "Content-Length" = Some (VInt (Z.of_N n))
    /\ contains slash (basename path) = false
    /\ (exists dir, path = dir +:+ basename path).
Proof.
  revert returned. unfold Serving.item_file.
  destruct (lib_get_item lib id) as [[path fields|artpath fields tracks|fields]|];
    try discriminate.
  cbn [Serving.attr_path mbind Serving.outcome_bind].
  destruct (send_file (Some path) true (Some (basename path))) as [r0|e] eqn:Hsend;
    [|discriminate].
  unfold Serving.os_path_getsize.
  destruct (getsize path) as [n|] eqn:Hsize; [|discriminate].
  intros [= <-]. exists path, fields, r0, n.
  split; [reflexivity|]. split; [assumption|]. split; [assumption|].
  split; [reflexivity|]. split; [apply lookup_insert_eq|].
  split; [apply basename_no_slash|apply basename_suffix].
Qed.

Lemma item_file_response_witness :
  Serving.item_file ServingExample.send_file Example.getsize Example.lib 1
  = Serving.Done ServingExample.response
  /\ exists path fields r0 n,
       lib_get_item Example.lib 1 = Some (OItem path fields)
       /\ ServingExample.send_file (Some path) true (Some (basename path))
          = Serving.Done r0
       /\ Example.getsize path = Some n
       /\ ServingExample.response
          = Serving.set_header "Content-Length" (VInt (Z.of_N n)) r0
       /\ Serving.headers ServingExample.response !! "Content-Length"
          = Some (VInt (Z.of_N n))
       /\ contains slash (basename path) = false
       /\ (exists dir, path = dir +:+ basename path).
Proof.
  split; [reflexivity|].
  exact (item_file_response ServingExample.send_file Example.getsize
           Example.lib 1 ServingExample.response eq_refl).
Defined.

(* ===================================================================== *)
(** ** Absent ids and nested redaction                                    *)
(* ===================================================================== *)

(** X15. An id the retriever does not know leaves no trace in the
    response: the responder answers as if its token had not been in the
    request, so one known id next to an unknown one still gives the bare
    object. *)
Theorem resource_skips_absent (int : string -> option Z)
    (getsize : string -> option N) (name : string)
    (retriever : Z -> option obj) (t s : string) (i : Z)
    (comma_free : contains comma t = false)
    (parsed : int t = Some i)
    (absent : retriever i = None) :
  resource int getsize name retriever (t +:+ "," +:+ s)
    = resource int getsize name retriever s
  /\ resource int getsize name retriever (s +:+ "," +:+ t)
     = resource int getsize name retriever s.
Proof.
  assert (Hone : _extract_ids int t = [i]).
  { rewrite extract_ids_omap, (split_token _ _ comma_free).
    cbn [omap list_omap]. now rewrite parsed. }
  unfold resource. rewrite !truthy_omap, !comma_cons, !extract_ids_app, Hone.
  rewrite !omap_app. cbn [omap list_omap]. rewrite absent.
  split; [reflexivity|]. now rewrite app_nil_r.
Qed.

Lemma resource_skips_absent_witness :
  get_item IntLiteral.int Example.getsize Example.lib ("99" +:+ "," +:+ "1")
  = get_item IntLiteral.int Example.getsize Example.lib "1".
Proof.
  apply (resource_skips_absent IntLiteral.int Example.getsize "items"
           (lib_get_item Example.lib) "99" "1" 99); reflexivity.
Defined.

(** X16. Redaction reaches into an expanded album: in its [items] list
    the entry of every track that is an Item is a mapping without a
    [path] key and with a [size] key, the entries standing in track
    order. *)
Theorem rep_expanded_tracks_redacted (getsize : string -> option N)
    (artpath : option string) (fields : gmap string value) (tracks : list obj) :
  exists d reps,
    _rep getsize (OAlbum artpath fields tracks) true = Ok (VDict d)
    /\ d !! "items" = Some (VList reps)
    /\ Forall2
         (fun t v =>
            match t with
            | OItem path _ =>
                exists d', v = VDict d'
                  /\ d' !! "path" = None
                  /\ d' !! "size" = Some (VInt (probed_size getsize path))
            | _ => True
            end) tracks reps.
Proof.
  destruct (rep_tracks_total getsize tracks) as [reps Hreps].
  exists (<["items" := VList reps]> (delete "artpath" fields)), reps.
  split; [now apply rep_album_expand|].
  split; [apply lookup_insert_eq|].
  apply comprehension_Forall2 in Hreps.
  eapply Forall2_impl; [exact Hreps|].
  intros [path f|a f ts|f] v Hv; [|exact I|exact I].
  rewrite rep_item in Hv. injection Hv as <-.
  eexists. split; [reflexivity|].
  split; [now rewrite lookup_insert_ne, lookup_delete_eq|apply lookup_insert_eq].
Qed.
